(** * export_repo.py: the line collector and the chunk partitioner

    A shallow embedding of [read_all_lines] and [write_exports] of
    [export_repo.py].  Python [int] values that are never negative here
    ([index], [pos], [target], lengths) are [nat]; Python [str] is
    [string]; Python list objects live in a store of references, because
    [write_exports] receives its argument by reference and mutates a list
    ([chunk.extend]). *)

From Stdlib Require Import String Ascii List Arith Lia.
From Stdlib Require Import DecimalString DecimalNat.
From stdpp Require Import gmap strings list fin_maps sorting.

(** ** Python strings *)

Module PyStr.

(** The one-character string holding a line feed. *)
Definition nl : string := String (ascii_of_nat 10) EmptyString.

(** [s.endswith(t)]: some tail of [s] is [t]. *)
Fixpoint endswith (s t : string) : bool :=
  String.eqb s t ||
  match s with
  | EmptyString => false
  | String _ s' => endswith s' t
  end.

(** [s.startswith(t)]. *)
Fixpoint startswith (s t : string) : bool :=
  match t with
  | EmptyString => true
  | String c t' =>
      match s with
      | EmptyString => false
      | String d s' => Ascii.eqb d c && startswith s' t'
      end
  end.

(** [sorted(l)] for a list of strings: the strings in ascending order,
    compared character by character by their codes. *)
Definition sorted (l : list string) : list string :=
  merge_sort String.le l.

(** [str(n)] for a non-negative integer. *)
Definition decimal (n : nat) : string :=
  NilZero.string_of_uint (Nat.to_uint n).

(** Left padding with the character 0 up to [width], as the format
    specification [0<width>d] does for a non-negative integer. *)
Definition zfill (width : nat) (s : string) : string :=
  string_of_list_ascii (replicate (width - String.length s) "0"%char) +:+ s.

(** [f"{n:03d}"]. *)
Definition format_03d (n : nat) : string := zfill 3 (decimal n).

(** Reading a string of decimal digits back as a number. *)
Definition read_nat (s : string) : option nat :=
  option_map Nat.of_uint (NilZero.uint_of_string s).

(** [fh.writelines(chunk)] writes the strings one after the other. *)
Definition joined (chunk : list string) : string :=
  fold_right String.append "" chunk.

End PyStr.

(** ** Python list objects *)

Module PyList.

Definition loc := positive.

(** [l[a:b]] for [0 <= a <= b]: out-of-range bounds are clamped. *)
Definition slice (l : list string) (a b : nat) : list string :=
  take (b - a) (drop a l).

(** A new list object. *)
Definition alloc (h : gmap loc (list string)) (v : list string)
  : loc * gmap loc (list string) :=
  let r := fresh (dom h) in (r, <[r := v]> h).

(** [r.extend(extra)]: the object behind [r] is changed in place. *)
Definition extend (h : gmap loc (list string)) (r : loc)
    (extra : list string) : gmap loc (list string) :=
  alter (fun v => v ++ extra) r h.

End PyList.

Import PyStr PyList.

(** ** The chunk partitioner and writer: [write_exports] *)

(** One pass through the loop body, as a record of what it wrote:
    the value of [index], the path opened, the list handed to
    [writelines], and how many strings line 37 appended to the slice
    (0 when the [if] on line 36 is not taken). *)
Record emitted := Emitted {
  e_index : nat;
  e_path : string;
  e_lines : list string;
  e_pad : nat
}.

(** What the program can see and change: list objects, the directories
    and files of the file system, and the trace of chunks written. *)
Record world := World {
  heap : gmap loc (list string);
  dirs : gset string;
  files : gmap string string;
  trace : list emitted
}.

(** Line 33: [225 if index % 2 == 1 else 180]. *)
Definition target (index : nat) : nat :=
  if index mod 2 =? 1 then 225 else 180.

(** [export_root / name] for a one-component relative [name]. *)
Definition path_join (root name : string) : string :=
  root +:+ "/" +:+ name.

(** Line 38. *)
Definition out_path (export_root : string) (index : nat) : string :=
  path_join export_root ("part_" +:+ format_03d index +:+ ".txt").

(** Line 29: [export_root.mkdir(parents=True, exist_ok=True)].  Only the
    root itself is recorded, not the directories above it. *)
Definition mkdir (export_root : string) (w : world) : world :=
  {| heap := heap w; dirs := {[export_root]} ∪ dirs w;
     files := files w; trace := trace w |}.

(** Lines 33 to 41.  [lines] is the reference the caller passed; the
    result is the new [index], the new [pos] and the new world.  [None]
    stands for a dangling reference, which Python never has. *)
Definition loop_body (lines : loc) (export_root : string)
    (index pos : nat) (w : world) : option (nat * nat * world) :=
  ls ← heap w !! lines;
  let tgt := target index in
  let '(chunk, h1) := alloc (heap w) (slice ls pos (pos + tgt)) in
  let pos' := pos + tgt in
  c0 ← h1 !! chunk;
  let short := length c0 <? tgt in
  let h2 := if short then extend h1 chunk (replicate (tgt - length c0) nl)
            else h1 in
  let pad := if short then tgt - length c0 else 0 in
  let p := out_path export_root index in
  c1 ← h2 !! chunk;
  Some (index + 1, pos',
        {| heap := h2; dirs := dirs w;
           files := <[p := joined c1]> (files w);
           trace := trace w ++ [Emitted index p c1 pad] |}).

(** Lines 32 to 41: [while pos < len(lines)].  [fuel] bounds the number
    of tests of the loop condition; [None] when it runs out. *)
Fixpoint while_loop (fuel : nat) (lines : loc) (export_root : string)
    (index pos : nat) (w : world) : option (nat * nat * world) :=
  match fuel with
  | 0 => None
  | S fuel' =>
      ls ← heap w !! lines;
      if pos <? length ls then
        '(index', pos', w') ← loop_body lines export_root index pos w;
        while_loop fuel' lines export_root index' pos' w'
      else Some (index, pos, w)
  end.

(** Lines 28 to 41.  The result holds the last values of [index] and
    [pos] next to the world the call leaves behind. *)
Definition write_exports (fuel : nat) (lines : loc) (export_root : string)
    (w : world) : option (nat * nat * world) :=
  while_loop fuel lines export_root 1 0 (mkdir export_root w).

(** *** The chunks as a function of the input list

    What the loop writes depends on the content of the list behind
    [lines] only.  [chunk_of] is one pass through lines 33 to 38 on that
    content, [chunks_from] the passes of the whole loop;
    [while_loop_run] below relates them to [while_loop]. *)

Definition chunk_of (ls : list string) (export_root : string)
    (index pos : nat) : emitted :=
  let tgt := target index in
  let c0 := slice ls pos (pos + tgt) in
  let pad := tgt - length c0 in
  Emitted index (out_path export_root index) (c0 ++ replicate pad nl) pad.

Fixpoint chunks_from (fuel : nat) (ls : list string) (export_root : string)
    (index pos : nat) : list emitted :=
  match fuel with
  | 0 => []
  | S fuel' =>
      if pos <? length ls then
        chunk_of ls export_root index pos
          :: chunks_from fuel' ls export_root (index + 1) (pos + target index)
      else []
  end.

(** Where the chunk after the first [k] chunks starts: the sum of the
    targets of the indices 1 to [k]. *)
Fixpoint offset (k : nat) : nat :=
  match k with
  | 0 => 0
  | S k' => offset k' + target k
  end.

(** The lines of a chunk that came from the input: the chunk without
    the strings line 37 appended. *)
Definition real_lines (e : emitted) : list string :=
  take (length (e_lines e) - e_pad e) (e_lines e).

(** The files after the chunks [cs] have been written, in order. *)
Definition written (cs : list emitted) (fs : gmap string string)
    : gmap string string :=
  foldl (fun fs e => <[e_path e := joined (e_lines e)]> fs) fs cs.

(** ** The line collector: [read_all_lines] *)

(** What [open(path)] and the iteration over the file do, seen from the
    program: the text that the iteration hands out (bytes decoded with
    [errors="ignore"], line ends translated to a line feed), and the
    exception that ends the [try] block, if there is one.  A file that
    cannot be opened hands out nothing and raises. *)
Record reading := Reading {
  delivered : string;
  raised : option string
}.

(** [for line in fh]: the text cut after every line feed; what is left
    after the last one is a line too, unless it is empty. *)
Fixpoint iter_lines_from (cur text : string) : list string :=
  match text with
  | EmptyString => match cur with EmptyString => [] | _ => [cur] end
  | String c rest =>
      if Ascii.eqb c (ascii_of_nat 10)
      then (cur +:+ nl) :: iter_lines_from "" rest
      else iter_lines_from (cur +:+ String c "") rest
  end.

Definition iter_lines (text : string) : list string :=
  iter_lines_from "" text.

(** Line 16. *)
Definition header (path : string) : string :=
  "-- " +:+ path +:+ " --" +:+ nl.

(** Line 20: [line if line.endswith("\n") else line + "\n"]. *)
Definition with_newline (line : string) : string :=
  if endswith line nl then line else line +:+ nl.

(** Line 22. *)
Definition error_message (path exc : string) : string :=
  "Error reading " +:+ path +:+ ": " +:+ exc.

(** Lines 16 to 24, for one [path]: the list [lines] and what has been
    printed, before and after. *)
Definition read_one (disk : string -> reading)
    (acc : list string * list string) (path : string)
    : list string * list string :=
  let '(lines, printed) := acc in
  let lines := lines ++ [header path] in
  let r := disk path in
  let lines :=
    foldl (fun lines line => lines ++ [with_newline line]) lines
          (iter_lines (delivered r)) in
  let printed :=
    match raised r with
    | Some exc => printed ++ [error_message path exc]
    | None => printed
    end in
  (lines ++ [nl], printed).

(** Lines 11 to 25: the list returned, and the lines printed. *)
Definition read_all_lines (disk : string -> reading)
    (file_list : list string) : list string * list string :=
  foldl (read_one disk) ([], []) file_list.

(** What one file adds to the list. *)
Definition contribution (disk : string -> reading) (path : string)
    : list string :=
  header path :: map with_newline (iter_lines (delivered (disk path)))
    ++ [nl].

(** What is printed for one file. *)
Definition report (disk : string -> reading) (path : string)
    : list string :=
  match raised (disk path) with
  | Some exc => [error_message path exc]
  | None => []
  end.

(** A string that ends with a line feed, and with one only. *)
Definition one_trailing_newline (s : string) : bool :=
  endswith s nl && negb (endswith s (nl +:+ nl)).

(** ** The file list: [get_repo_files] *)

(** The condition of the generator on line 8. *)
Definition kept (f : string) : bool :=
  negb (startswith f "export/") && negb (String.eqb f "export_repo.py").

(** Line 8.  [files] is the value of the variable of that name: the
    lines of the output of [git ls-files], which line 7 obtains from
    outside the program. *)
Definition get_repo_files (files : list string) : list string :=
  sorted (List.filter kept files).

(** ** The whole run: [main] *)

(** Lines 44 to 48.  [ls_files] is the output of [git ls-files] as for
    [get_repo_files]; the list that [read_all_lines] returns is a new
    list object, passed to [write_exports] by reference.  The result is
    the world after the run and what was printed. *)
Definition main (fuel : nat) (ls_files : list string)
    (disk : string -> reading) (w : world) : option (world * list string) :=
  let repo_files := get_repo_files ls_files in
  let '(ls, printed) := read_all_lines disk repo_files in
  let '(lines, h) := alloc (heap w) ls in
  '(_, _, w') ← write_exports fuel lines "export"
                  {| heap := h; dirs := dirs w; files := files w;
                     trace := trace w |};
  Some (w', printed ++ ["Export complete"]).

(** ** Concrete inputs *)

(** A caller's list of two lines, and a world that holds it at
    reference 1 and nothing else. *)
Definition two_lines : list string := ["a" +:+ nl; "b" +:+ nl].

Definition demo_world : world :=
  {| heap := {[1%positive := two_lines]}; dirs := ∅; files := ∅;
     trace := [] |}.

(** A world whose list at reference 1 has [n] lines. *)
Definition world_of_length (n : nat) : world :=
  {| heap := {[1%positive := replicate n ("x" +:+ nl)]}; dirs := ∅;
     files := ∅; trace := [] |}.

(** A file system on which every file hands out one line and then
    fails with an input/output error. *)
Definition flaky_disk (path : string) : reading :=
  {| delivered := "a" +:+ nl; raised := Some "Input/output error" |}.

(** A file system on which no file can be opened. *)
Definition locked_disk (path : string) : reading :=
  {| delivered := ""; raised := Some "Permission denied" |}.

(** What [git ls-files] may list: two files to export, one file of the
    export directory and the script itself. *)
Definition tracked_demo : list string :=
  ["src/b.py"; "export/part_001.txt"; "README.md"; "export_repo.py"].

(** A file system on which every file holds two lines, the second
    without a line feed, and is read without failure. *)
Definition plain_disk (path : string) : reading :=
  {| delivered := "x" +:+ nl +:+ "y"; raised := None |}.

(** ** Examples *)

Example format_03d_7 : format_03d 7 = "007".
Proof. reflexivity. Qed.

Example format_03d_1234 : format_03d 1234 = "1234".
Proof. reflexivity. Qed.

Example iter_lines_ex :
  iter_lines ("ab" +:+ nl +:+ nl +:+ "c") = ["ab" +:+ nl; nl; "c"].
Proof. reflexivity. Qed.

(** The scenario of the specification with the sizes of the code: 226
    lines give two chunks. *)
Example chunks_226 :
  map (fun e => (e_index e, length (e_lines e), e_pad e))
      (chunks_from 227 (replicate 226 "x") "export" 1 0)
  = [(1, 225, 0); (2, 180, 179)].
Proof. vm_compute. reflexivity. Qed.

(** The empty list: the body does not run. *)
Example write_exports_empty :
  write_exports 1 1%positive "export" (world_of_length 0)
  = Some (1, 0, mkdir "export" (world_of_length 0)).
Proof. reflexivity. Qed.

(** Two lines: the caller's list is as it was, the chunk is a second
    list object, of 225 lines, and one file has been written. *)
Example write_exports_two_lines :
  (λ r, (heap r.2 !! 1%positive, length <$> heap r.2 !! 2%positive,
         size (heap r.2), size (files r.2)))
    <$> write_exports 3 1%positive "export" demo_world
  = Some (Some two_lines, Some 225, 2, 1).
Proof. vm_compute. reflexivity. Qed.

(** 406 lines: one more than the first two chunks hold. *)
Example write_exports_406 :
  (λ r, (r.1.1, r.1.2,
         map (λ e, (e_index e, e_path e, length (e_lines e), e_pad e))
             (trace r.2)))
    <$> write_exports 500 1%positive "export" (world_of_length 406)
  = Some (4, 630,
          [ (1, "export/part_001.txt", 225, 0);
            (2, "export/part_002.txt", 180, 0);
            (3, "export/part_003.txt", 225, 224) ]).
Proof. vm_compute. reflexivity. Qed.

(** One file that cannot be opened: its header, the separator, and
    one line printed. *)
Example read_all_lines_locked :
  read_all_lines locked_disk ["secret.txt"]
  = ([header "secret.txt"; nl],
     ["Error reading secret.txt: Permission denied"]).
Proof. reflexivity. Qed.

Example get_repo_files_demo :
  get_repo_files tracked_demo = ["README.md"; "src/b.py"].
Proof. reflexivity. Qed.

Example main_demo :
  (λ r, (map (λ e, (e_path e, take 7 (e_lines e), e_pad e)) (trace r.1),
         r.2))
    <$> main 9 tracked_demo plain_disk demo_world
  = Some ([ ("export/part_001.txt",
             [ "-- README.md --" +:+ nl; "x" +:+ nl; "y" +:+ nl; nl;
               "-- src/b.py --" +:+ nl; "x" +:+ nl; "y" +:+ nl ],
             217) ],
          ["Export complete"]).
Proof. vm_compute. reflexivity. Qed.

(** ** The partitioner: one pass and the whole loop *)

Section Partitioner.

Implicit Types (ls : list string) (w : world) (l : loc).

Lemma target_cases index : target index = 225 ∨ target index = 180.
Proof. unfold target. destruct (index mod 2 =? 1); auto. Qed.

Lemma target_pos index : 0 < target index.
Proof. destruct (target_cases index) as [-> | ->]; lia. Qed.

Lemma length_slice ls a n :
  length (slice ls a (a + n)) = n `min` (length ls - a).
Proof.
  unfold slice. replace (a + n - a) with n by lia.
  by rewrite length_take, length_drop.
Qed.

Lemma length_chunk_of ls root index pos :
  length (e_lines (chunk_of ls root index pos)) = target index.
Proof.
  unfold chunk_of. cbn [e_lines].
  rewrite length_app, length_replicate, length_slice. lia.
Qed.

(** One pass of the body, given the content of the list behind [l]:
    it allocates the chunk at a fresh reference and touches no other
    list object. *)
Lemma loop_body_run l root index pos w ls :
  heap w !! l = Some ls →
  loop_body l root index pos w =
    Some (index + 1, pos + target index,
          {| heap := <[fresh (dom (heap w)) :=
                        e_lines (chunk_of ls root index pos)]> (heap w);
             dirs := dirs w;
             files := <[out_path root index :=
                         joined (e_lines (chunk_of ls root index pos))]>
                        (files w);
             trace := trace w ++ [chunk_of ls root index pos] |}).
Proof.
  intros Hl. unfold loop_body, alloc, chunk_of. rewrite Hl.
  cbn [mbind option_bind e_lines]. rewrite lookup_insert_eq.
  cbn [mbind option_bind].
  set (c0 := slice ls pos (pos + target index)).
  assert (Hc0 : length c0 ≤ target index).
  { subst c0. rewrite length_slice. lia. }
  destruct (Nat.ltb_spec (length c0) (target index)) as [Hlt | Hge].
  - unfold extend. rewrite alter_insert_eq, lookup_insert_eq.
    reflexivity.
  - rewrite lookup_insert_eq. cbn [mbind option_bind].
    replace (target index - length c0) with 0 by lia.
    cbn [replicate]. rewrite app_nil_r. reflexivity.
Qed.

Lemma written_app cs1 cs2 fs :
  written (cs1 ++ cs2) fs = written cs2 (written cs1 fs).
Proof. unfold written. apply foldl_app. Qed.

(** The loop, given the content [ls] of the list behind [l] and fuel
    for more tests than there are lines left: it ends, with [pos] at
    or beyond the end of [ls]; it has written the chunks of
    [chunks_from]; every list object that existed before is as it
    was. *)
Lemma while_loop_run l root fuel :
  ∀ index pos w ls,
    heap w !! l = Some ls →
    length ls - pos < fuel →
    ∃ pos' w',
      while_loop fuel l root index pos w =
        Some (index + length (chunks_from fuel ls root index pos),
              pos', w')
      ∧ length ls ≤ pos'
      ∧ pos ≤ pos'
      ∧ trace w' = trace w ++ chunks_from fuel ls root index pos
      ∧ files w' = written (chunks_from fuel ls root index pos) (files w)
      ∧ dirs w' = dirs w
      ∧ heap w ⊆ heap w'.
Proof.
  induction fuel as [| fuel IH]; intros index pos w ls Hl Hfuel.
  { lia. }
  cbn [while_loop chunks_from]. rewrite Hl. cbn [mbind option_bind].
  destruct (Nat.ltb_spec pos (length ls)) as [Hlt | Hge].
  - rewrite (loop_body_run _ _ _ _ _ _ Hl). cbn [mbind option_bind].
    set (w1 := {| heap := _ |}).
    assert (Hfresh : heap w !! fresh (dom (heap w)) = None).
    { apply not_elem_of_dom, is_fresh. }
    assert (Hsub : heap w ⊆ heap w1).
    { subst w1. cbn [heap]. by apply insert_subseteq. }
    assert (Hl1 : heap w1 !! l = Some ls).
    { by eapply lookup_weaken. }
    pose proof (target_pos index) as Hpos.
    destruct (IH (index + 1) (pos + target index) w1 ls Hl1)
      as (pos' & w' & Hrun & Hend & Hmono & Htr & Hfs & Hd & Hh).
    { lia. }
    exists pos', w'. rewrite Hrun. cbn [length].
    split_and!.
    + do 3 f_equal. lia.
    + done.
    + lia.
    + rewrite Htr. subst w1. cbn [trace]. by rewrite <- app_assoc.
    + rewrite Hfs. subst w1. by cbn [files].
    + rewrite Hd. by subst w1.
    + by etrans.
  - exists pos, w. cbn [length]. split_and!; try done.
    + do 3 f_equal. lia.
    + by rewrite app_nil_r.
Qed.

End Partitioner.

(** ** The chunks of [chunks_from] *)

Section Chunks.

Variable root : string.
Implicit Types (ls : list string) (e : emitted).

Lemma length_chunks_pad ls index pos :
  e_pad (chunk_of ls root index pos)
  = target index - target index `min` (length ls - pos).
Proof. unfold chunk_of. cbn [e_pad]. by rewrite length_slice. Qed.

Lemma real_lines_chunk_of ls index pos :
  real_lines (chunk_of ls root index pos)
  = slice ls pos (pos + target index).
Proof.
  unfold real_lines. rewrite length_chunk_of. unfold chunk_of.
  cbn [e_lines e_pad]. apply take_app_length'.
  rewrite length_slice. lia.
Qed.

Lemma chunk_of_split ls index pos :
  e_lines (chunk_of ls root index pos)
  = real_lines (chunk_of ls root index pos)
      ++ replicate (e_pad (chunk_of ls root index pos)) nl.
Proof. by rewrite real_lines_chunk_of. Qed.

Lemma slice_drop ls pos n :
  slice ls pos (pos + n) ++ drop (pos + n) ls = drop pos ls.
Proof.
  unfold slice. replace (pos + n - pos) with n by lia.
  rewrite <- drop_drop. apply take_drop.
Qed.

Lemma chunks_index fuel : ∀ ls index pos,
  map e_index (chunks_from fuel ls root index pos)
  = seq index (length (chunks_from fuel ls root index pos)).
Proof.
  induction fuel as [| fuel IH]; intros ls index pos; [done |].
  cbn [chunks_from]. destruct (pos <? length ls); [| done].
  cbn [map length seq e_index chunk_of]. rewrite IH.
  by replace (index + 1) with (S index) by lia.
Qed.

(** A property of every pass holds of every chunk. *)
Lemma chunks_Forall (P : emitted → Prop) ls fuel :
  (∀ index pos, pos < length ls → P (chunk_of ls root index pos)) →
  ∀ index pos, Forall P (chunks_from fuel ls root index pos).
Proof.
  intros HP. induction fuel as [| fuel IH]; intros index pos; [done |].
  cbn [chunks_from]. destruct (Nat.ltb_spec pos (length ls)); [| done].
  constructor; auto.
Qed.

Lemma chunks_real fuel : ∀ ls index pos,
  length ls - pos < fuel →
  concat (map real_lines (chunks_from fuel ls root index pos))
  = drop pos ls.
Proof.
  induction fuel as [| fuel IH]; intros ls index pos Hfuel; [lia |].
  cbn [chunks_from]. destruct (Nat.ltb_spec pos (length ls)) as [Hlt | Hge].
  - cbn [map concat]. pose proof (target_pos index).
    rewrite IH by lia. rewrite real_lines_chunk_of. apply slice_drop.
  - by rewrite drop_ge.
Qed.

(** More fuel than needed changes nothing. *)
Lemma chunks_fuel fuel : ∀ fuel' ls index pos,
  length ls - pos < fuel → fuel ≤ fuel' →
  chunks_from fuel' ls root index pos = chunks_from fuel ls root index pos.
Proof.
  induction fuel as [| fuel IH]; intros fuel' ls index pos Hf Hle; [lia |].
  destruct fuel' as [| fuel']; [lia |].
  cbn [chunks_from]. destruct (Nat.ltb_spec pos (length ls)); [| done].
  pose proof (target_pos index). f_equal. apply IH; lia.
Qed.

Lemma target_parity index :
  target index = if Nat.odd index then 225 else 180.
Proof.
  unfold target. destruct (Nat.odd index) eqn:Hodd.
  - apply Nat.odd_spec in Hodd as [k ->].
    replace ((2 * k + 1) mod 2) with 1; [done |].
    pose proof (Nat.div_mod_eq (2 * k + 1) 2).
    pose proof (Nat.mod_upper_bound (2 * k + 1) 2). lia.
  - destruct (Nat.eqb_spec (index mod 2) 1) as [Hm | Hm]; [| done].
    assert (Nat.odd index = true); [| congruence].
    apply Nat.odd_spec. exists (index / 2).
    pose proof (Nat.div_mod_eq index 2). lia.
Qed.

Lemma offset_lt k n : k < n → offset k < offset n.
Proof.
  induction 1 as [| n Hle IH]; cbn [offset].
  - pose proof (target_pos (S k)). lia.
  - pose proof (target_pos (S n)). lia.
Qed.

(** The chunk at place [k] of the trace is cut at [offset], which
    is a function of the place alone. *)
Lemma chunks_lookup fuel : ∀ ls n k e,
  chunks_from fuel ls root (S n) (offset n) !! k = Some e →
  e = chunk_of ls root (S (n + k)) (offset (n + k))
  ∧ offset (n + k) < length ls.
Proof.
  induction fuel as [| fuel IH]; intros ls n k e; [done |].
  cbn [chunks_from].
  destruct (Nat.ltb_spec (offset n) (length ls)) as [Hlt | Hge]; [| done].
  destruct k as [| k]; cbn [lookup list_lookup].
  - intros [= <-]. by rewrite Nat.add_0_r.
  - replace (S n + 1) with (S (S n)) by lia.
    change (offset n + target (S n)) with (offset (S n)).
    intros He. apply IH in He.
    by replace (n + S k) with (S n + k) by lia.
Qed.

(** A list that ends where a chunk ends is cut without padding. *)
Lemma chunks_exact fuel : ∀ ls n k,
  length ls = offset n → k ≤ n →
  length ls - offset k < fuel →
  length (chunks_from fuel ls root (S k) (offset k)) = n - k
  ∧ Forall (λ e, e_pad e = 0) (chunks_from fuel ls root (S k) (offset k)).
Proof.
  induction fuel as [| fuel IH]; intros ls n k Hlen Hk Hfuel; [lia |].
  cbn [chunks_from].
  destruct (Nat.ltb_spec (offset k) (length ls)) as [Hlt | Hge].
  - assert (k < n) as Hkn.
    { destruct (decide (k = n)) as [-> | ?]; lia. }
    assert (offset (S k) ≤ offset n) as Hnext.
    { destruct (decide (S k = n)) as [<- | ?]; [done |].
      apply Nat.lt_le_incl, offset_lt. lia. }
    cbn [offset] in Hnext. pose proof (target_pos (S k)).
    replace (S k + 1) with (S (S k)) by lia.
    change (offset k + target (S k)) with (offset (S k)).
    destruct (IH ls n (S k)) as [Hl HF]; [done | lia | cbn [offset]; lia |].
    split.
    + cbn [length]. rewrite Hl. lia.
    + constructor; [| done]. rewrite length_chunks_pad. lia.
  - split; [| done]. cbn [length].
    destruct (decide (k = n)) as [-> | ?]; [lia |].
    assert (offset k < offset n) by (apply offset_lt; lia). lia.
Qed.

End Chunks.

(** ** The call [write_exports(lines, export_root)] *)

Lemma write_exports_run l root fuel w ls :
  heap w !! l = Some ls →
  length ls < fuel →
  ∃ pos' w',
    write_exports fuel l root w =
      Some (1 + length (chunks_from fuel ls root 1 0), pos', w')
    ∧ length ls ≤ pos'
    ∧ trace w' = trace w ++ chunks_from fuel ls root 1 0
    ∧ files w' = written (chunks_from fuel ls root 1 0) (files w)
    ∧ dirs w' = {[root]} ∪ dirs w
    ∧ heap w ⊆ heap w'.
Proof.
  intros Hl Hfuel. unfold write_exports.
  destruct (while_loop_run l root fuel 1 0 (mkdir root w) ls)
    as (pos' & w' & Hrun & Hend & _ & Htr & Hfs & Hd & Hh);
    [done | lia |].
  exists pos', w'. by rewrite Hrun.
Qed.

(** C1: the chunks written by a call, each without the padding lines
    that line 37 appended to it, give back the list that was passed, in
    order; the padding lines of a chunk are its last [e_pad] strings,
    each a line feed.  (The empty list is covered too.) *)
Theorem C1_real_lines_reproduce_input l root fuel w ls :
  heap w !! l = Some ls →
  length ls < fuel →
  ∃ index' pos' w' cs,
    write_exports fuel l root w = Some (index', pos', w')
    ∧ trace w' = trace w ++ cs
    ∧ Forall (λ e, e_lines e = real_lines e ++ replicate (e_pad e) nl) cs
    ∧ concat (map real_lines cs) = ls.
Proof.
  intros Hl Hfuel.
  destruct (write_exports_run l root fuel w ls Hl Hfuel)
    as (pos' & w' & Hrun & _ & Htr & _).
  eexists _, pos', w', _. split_and!; [exact Hrun | exact Htr | |].
  - apply chunks_Forall. intros index pos _. apply chunk_of_split.
  - rewrite chunks_real by lia. apply drop_0.
Qed.

Lemma C1_witness :
  heap demo_world !! 1%positive = Some two_lines
  ∧ length two_lines < 3
  ∧ ∃ index' pos' w' cs,
      write_exports 3 1%positive "export" demo_world = Some (index', pos', w')
      ∧ trace w' = trace demo_world ++ cs
      ∧ Forall (λ e, e_lines e = real_lines e ++ replicate (e_pad e) nl) cs
      ∧ concat (map real_lines cs) = two_lines.
Proof.
  split; [reflexivity |]. split; [cbn; lia |].
  apply (C1_real_lines_reproduce_input 1%positive "export" 3 demo_world
           two_lines); [reflexivity | cbn; lia].
Defined.

(** C2: every chunk written has as many lines as the target of its
    index, which is 225 for an odd index and 180 for an even one; the
    index of a chunk is its place in the run, counted from 1. *)
Theorem C2_chunk_length_is_target l root fuel w ls :
  heap w !! l = Some ls →
  length ls < fuel →
  ∃ index' pos' w' cs,
    write_exports fuel l root w = Some (index', pos', w')
    ∧ trace w' = trace w ++ cs
    ∧ map e_index cs = seq 1 (length cs)
    ∧ Forall (λ e, length (e_lines e) = target (e_index e)
                   ∧ target (e_index e)
                     = if Nat.odd (e_index e) then 225 else 180) cs.
Proof.
  intros Hl Hfuel.
  destruct (write_exports_run l root fuel w ls Hl Hfuel)
    as (pos' & w' & Hrun & _ & Htr & _).
  eexists _, pos', w', _. split_and!; [exact Hrun | exact Htr | |].
  - apply chunks_index.
  - apply chunks_Forall. intros index pos _. split.
    + apply length_chunk_of.
    + apply target_parity.
Qed.

Lemma C2_witness :
  heap demo_world !! 1%positive = Some two_lines
  ∧ length two_lines < 3
  ∧ ∃ index' pos' w' cs,
      write_exports 3 1%positive "export" demo_world = Some (index', pos', w')
      ∧ trace w' = trace demo_world ++ cs
      ∧ map e_index cs = seq 1 (length cs)
      ∧ Forall (λ e, length (e_lines e) = target (e_index e)
                     ∧ target (e_index e)
                       = if Nat.odd (e_index e) then 225 else 180) cs.
Proof.
  split; [reflexivity |]. split; [cbn; lia |].
  apply (C2_chunk_length_is_target 1%positive "export" 3 demo_world
           two_lines); [reflexivity | cbn; lia].
Defined.

(** C3: the target is 225 for an odd index and 180 for an even one, so
    a chunk of odd index is longer than one of even index; the chunk at
    place [k] of a run (index [k + 1]) is the pass of the body at
    [offset k], the sum of the targets before it, whatever the lines
    are. *)
Theorem C3_target_alternates_by_parity l root fuel w ls :
  heap w !! l = Some ls →
  length ls < fuel →
  (∀ i, target i = if Nat.odd i then 225 else 180)
  ∧ (∀ i j, Nat.odd i = true → Nat.even j = true → target j < target i)
  ∧ ∃ index' pos' w' cs,
      write_exports fuel l root w = Some (index', pos', w')
      ∧ trace w' = trace w ++ cs
      ∧ ∀ k e, cs !! k = Some e →
          e = chunk_of ls root (k + 1) (offset k)
          ∧ e_index e = k + 1
          ∧ length (e_lines e) = if Nat.odd (k + 1) then 225 else 180.
Proof.
  intros Hl Hfuel. split_and!.
  - apply target_parity.
  - intros i j Hi Hj. rewrite !target_parity, Hi.
    rewrite <- Nat.negb_even, Hj. cbn. lia.
  - destruct (write_exports_run l root fuel w ls Hl Hfuel)
      as (pos' & w' & Hrun & _ & Htr & _).
    eexists _, pos', w', _. split_and!; [exact Hrun | exact Htr |].
    intros k e He. apply (chunks_lookup root fuel ls 0 k e) in He as [-> _].
    cbn [Nat.add]. replace (S k) with (k + 1) by lia. split_and!.
    + done.
    + done.
    + rewrite length_chunk_of. apply target_parity.
Qed.

Lemma C3_witness :
  heap demo_world !! 1%positive = Some two_lines
  ∧ length two_lines < 3
  ∧ (∀ i, target i = if Nat.odd i then 225 else 180)
  ∧ (∀ i j, Nat.odd i = true → Nat.even j = true → target j < target i)
  ∧ ∃ index' pos' w' cs,
      write_exports 3 1%positive "export" demo_world = Some (index', pos', w')
      ∧ trace w' = trace demo_world ++ cs
      ∧ ∀ k e, cs !! k = Some e →
          e = chunk_of two_lines "export" (k + 1) (offset k)
          ∧ e_index e = k + 1
          ∧ length (e_lines e) = if Nat.odd (k + 1) then 225 else 180.
Proof.
  split; [reflexivity |]. split; [cbn; lia |].
  apply (C3_target_alternates_by_parity 1%positive "export" 3 demo_world
           two_lines); [reflexivity | cbn; lia].
Defined.

(** C10: the call leaves the list it was given as it was, and every
    other list object that existed before the call too: the slice is a
    new object, and line 37 extends that one. *)
Theorem C10_input_not_modified l root fuel w ls :
  heap w !! l = Some ls →
  length ls < fuel →
  ∃ index' pos' w',
    write_exports fuel l root w = Some (index', pos', w')
    ∧ heap w' !! l = Some ls
    ∧ ∀ r v, heap w !! r = Some v → heap w' !! r = Some v.
Proof.
  intros Hl Hfuel.
  destruct (write_exports_run l root fuel w ls Hl Hfuel)
    as (pos' & w' & Hrun & _ & _ & _ & _ & Hsub).
  eexists _, pos', w'. split_and!; [exact Hrun | |].
  - by eapply lookup_weaken.
  - intros r v Hr. by eapply lookup_weaken.
Qed.

Lemma C10_witness :
  heap demo_world !! 1%positive = Some two_lines
  ∧ length two_lines < 3
  ∧ ∃ index' pos' w',
      write_exports 3 1%positive "export" demo_world = Some (index', pos', w')
      ∧ heap w' !! 1%positive = Some two_lines
      ∧ ∀ r v, heap demo_world !! r = Some v → heap w' !! r = Some v.
Proof.
  split; [reflexivity |]. split; [cbn; lia |].
  apply (C10_input_not_modified 1%positive "export" 3 demo_world
           two_lines); [reflexivity | cbn; lia].
Defined.

(** A run that ends with some fuel ends the same way with more. *)
Lemma while_loop_more_fuel l root fuel :
  ∀ fuel' index pos w r,
    while_loop fuel l root index pos w = Some r →
    fuel ≤ fuel' →
    while_loop fuel' l root index pos w = Some r.
Proof.
  induction fuel as [| fuel IH]; intros fuel' index pos w r Hrun Hle;
    [done |].
  destruct fuel' as [| fuel']; [lia |].
  cbn [while_loop] in *.
  destruct (heap w !! l) as [ls |]; [| done]. cbn [mbind option_bind] in *.
  destruct (pos <? length ls); [| done].
  destruct (loop_body l root index pos w) as [[[index1 pos1] w1] |];
    [| done].
  cbn [mbind option_bind] in *. apply IH; [done | lia].
Qed.

(** C5: with fuel for more tests than the list has lines the loop
    ends, with [pos] at or beyond the length of the list, and ends the
    same way with any greater fuel; every pass of the body moves [pos]
    forward by the target, which is positive; for the empty list the
    body does not run: [index] and [pos] keep their first values, and no
    chunk and no file is written. *)
Theorem C5_loop_terminates l root fuel w ls :
  heap w !! l = Some ls →
  length ls < fuel →
  (∃ index' pos' w',
     write_exports fuel l root w = Some (index', pos', w')
     ∧ length ls ≤ pos'
     ∧ (∀ fuel', fuel ≤ fuel' →
          write_exports fuel' l root w = Some (index', pos', w'))
     ∧ (ls = [] →
          index' = 1 ∧ pos' = 0 ∧ trace w' = trace w ∧ files w' = files w))
  ∧ (∀ index pos w1, heap w1 !! l = Some ls →
       ∃ w2, loop_body l root index pos w1
             = Some (index + 1, pos + target index, w2)
             ∧ pos < pos + target index).
Proof.
  intros Hl Hfuel. split.
  - destruct (write_exports_run l root fuel w ls Hl Hfuel)
      as (pos' & w' & Hrun & Hend & _).
    eexists _, pos', w'. split_and!; [exact Hrun | exact Hend | |].
    + intros fuel' Hle. unfold write_exports in *.
      by eapply while_loop_more_fuel.
    + intros ->. destruct fuel as [| fuel]; [cbn in Hfuel; lia |].
      unfold write_exports in Hrun. cbn [while_loop chunks_from] in Hrun.
      change (heap (mkdir root w)) with (heap w) in Hrun.
      rewrite Hl in Hrun. cbn in Hrun. by injection Hrun as <- <-.
  - intros index pos w1 Hl1. eexists. split.
    + by apply loop_body_run.
    + pose proof (target_pos index). lia.
Qed.

Lemma C5_witness :
  heap demo_world !! 1%positive = Some two_lines
  ∧ length two_lines < 3
  ∧ (∃ index' pos' w',
       write_exports 3 1%positive "export" demo_world
       = Some (index', pos', w')
       ∧ length two_lines ≤ pos'
       ∧ (∀ fuel', 3 ≤ fuel' →
            write_exports fuel' 1%positive "export" demo_world
            = Some (index', pos', w'))
       ∧ (two_lines = [] →
            index' = 1 ∧ pos' = 0 ∧ trace w' = trace demo_world
            ∧ files w' = files demo_world))
  ∧ (∀ index pos w1, heap w1 !! 1%positive = Some two_lines →
       ∃ w2, loop_body 1%positive "export" index pos w1
             = Some (index + 1, pos + target index, w2)
             ∧ pos < pos + target index).
Proof.
  split; [reflexivity |]. split; [cbn; lia |].
  apply (C5_loop_terminates 1%positive "export" 3 demo_world two_lines);
    [reflexivity | cbn; lia].
Defined.

(** C4: a list of [target 1 + 1] = 226 lines is written as two chunks:
    the first is the first 225 lines and has no padding; the second is
    the one line left, followed by [target 2 - 1] = 179 padding lines,
    each of them a line feed alone. *)
Theorem C4_one_line_beyond_first_chunk l root fuel w ls :
  heap w !! l = Some ls →
  length ls < fuel →
  length ls = target 1 + 1 →
  target 1 = 225 ∧ target 2 = 180
  ∧ ∃ pos' w' last,
      write_exports fuel l root w = Some (3, pos', w')
      ∧ ls = take (target 1) ls ++ [last]
      ∧ trace w' = trace w ++
          [ {| e_index := 1; e_path := out_path root 1;
               e_lines := take (target 1) ls; e_pad := 0 |};
            {| e_index := 2; e_path := out_path root 2;
               e_lines := last :: replicate (target 2 - 1) nl;
               e_pad := target 2 - 1 |} ].
Proof.
  intros Hl Hfuel Hlen. split; [done |]. split; [done |].
  destruct (write_exports_run l root fuel w ls Hl Hfuel)
    as (pos' & w' & Hrun & _ & Htr & _).
  change (target 1) with 225 in *. change (target 2) with 180.
  assert (Hlast : ∃ last, drop 225 ls = [last]).
  { pose proof (length_drop ls 225) as Hd.
    destruct (drop 225 ls) as [| x [| y t]]; cbn in Hd; try lia. eauto. }
  destruct Hlast as [last Hlast].
  assert (Hcs : chunks_from fuel ls root 1 0 =
    [ Emitted 1 (out_path root 1) (take 225 ls) 0;
      Emitted 2 (out_path root 2) (last :: replicate 179 nl) 179 ]).
  { destruct fuel as [| [| [| fuel]]]; try lia.
    cbn [chunks_from]. change (target 1) with 225. change (target 2) with 180.
    rewrite Hlen. change (1 + 1) with 2. change (0 + 225) with 225.
    change (0 <? 225 + 1) with true. change (225 <? 225 + 1) with true.
    cbv iota.
    replace (225 + 180 <? 225 + 1) with false
      by (symmetry; apply Nat.ltb_ge; lia).
    unfold chunk_of. change (target 1) with 225. change (target 2) with 180.
    unfold slice. rewrite drop_0, Hlast.
    replace (0 + 225 - 0) with 225 by lia.
    replace (225 + 180 - 225) with 180 by lia.
    rewrite length_take_le by lia.
    replace (225 - 225) with 0 by lia.
    change (take 180 [last]) with [last].
    cbn [replicate length]. rewrite app_nil_r.
    by replace (180 - 1) with 179 by lia. }
  exists pos', w', last. rewrite Hcs in Hrun, Htr. split_and!.
  - exact Hrun.
  - rewrite <- Hlast. symmetry. apply take_drop.
  - replace (180 - 1) with 179 by lia. exact Htr.
Qed.

Lemma C4_witness :
  heap (world_of_length 226) !! 1%positive
    = Some (replicate 226 ("x" +:+ nl))
  ∧ length (replicate 226 ("x" +:+ nl)) < 227
  ∧ length (replicate 226 ("x" +:+ nl)) = target 1 + 1
  ∧ target 1 = 225 ∧ target 2 = 180
  ∧ ∃ pos' w' last,
      write_exports 227 1%positive "export" (world_of_length 226)
      = Some (3, pos', w')
      ∧ replicate 226 ("x" +:+ nl)
        = take (target 1) (replicate 226 ("x" +:+ nl)) ++ [last]
      ∧ trace w' = trace (world_of_length 226) ++
          [ {| e_index := 1; e_path := out_path "export" 1;
               e_lines := take (target 1) (replicate 226 ("x" +:+ nl));
               e_pad := 0 |};
            {| e_index := 2; e_path := out_path "export" 2;
               e_lines := last :: replicate (target 2 - 1) nl;
               e_pad := target 2 - 1 |} ].
Proof.
  split; [reflexivity |].
  split; [rewrite length_replicate; lia |].
  split; [rewrite length_replicate; reflexivity |].
  apply (C4_one_line_beyond_first_chunk 1%positive "export" 227
           (world_of_length 226) (replicate 226 ("x" +:+ nl)));
    [reflexivity | rewrite length_replicate; lia
    | rewrite length_replicate; reflexivity].
Defined.

(** C6: every chunk written holds at least one line of the input, so
    none is padding only; a list that ends where a chunk ends (its
    length is some [offset n]) is written as [n] chunks without any
    padding; a list of [target 1] = 225 lines is written as one chunk,
    of index 1, which is the list itself. *)
Theorem C6_no_chunk_of_padding_only l root fuel w ls :
  heap w !! l = Some ls →
  length ls < fuel →
  ∃ index' pos' w' cs,
    write_exports fuel l root w = Some (index', pos', w')
    ∧ trace w' = trace w ++ cs
    ∧ Forall (λ e, real_lines e ≠ [] ∧ e_pad e < length (e_lines e)) cs
    ∧ (∀ n, length ls = offset n →
         length cs = n ∧ Forall (λ e, e_pad e = 0) cs)
    ∧ (length ls = target 1 →
         cs = [ {| e_index := 1; e_path := out_path root 1;
                   e_lines := ls; e_pad := 0 |} ]).
Proof.
  intros Hl Hfuel.
  destruct (write_exports_run l root fuel w ls Hl Hfuel)
    as (pos' & w' & Hrun & _ & Htr & _).
  eexists _, pos', w', _. split_and!; [exact Hrun | exact Htr | | |].
  - apply chunks_Forall. intros index pos Hpos.
    pose proof (target_pos index) as Ht.
    assert (Hreal : 0 < length (real_lines (chunk_of ls root index pos))).
    { rewrite real_lines_chunk_of, length_slice. lia. }
    split.
    + intros Hnil. rewrite Hnil in Hreal. cbn in Hreal. lia.
    + rewrite length_chunk_of, length_chunks_pad. lia.
  - intros n Hn.
    destruct (chunks_exact root fuel ls n 0 Hn) as [Hlen Hpad];
      [lia | cbn [offset]; lia |].
    split; [| exact Hpad]. change (offset 0) with 0 in Hlen. lia.
  - intros Hlen. change (target 1) with 225 in Hlen.
    destruct fuel as [| [| fuel]]; try lia.
    cbn [chunks_from]. change (target 1) with 225. rewrite Hlen.
    change (0 <? 225) with true. change (0 + 225 <? 225) with false.
    cbv iota. unfold chunk_of, slice. change (target 1) with 225.
    rewrite drop_0. replace (0 + 225 - 0) with 225 by lia.
    rewrite take_ge by lia. rewrite Hlen.
    replace (225 - 225) with 0 by lia. cbn [replicate].
    by rewrite app_nil_r.
Qed.

Lemma C6_witness :
  heap (world_of_length 225) !! 1%positive
    = Some (replicate 225 ("x" +:+ nl))
  ∧ length (replicate 225 ("x" +:+ nl)) < 226
  ∧ ∃ index' pos' w' cs,
      write_exports 226 1%positive "export" (world_of_length 225)
      = Some (index', pos', w')
      ∧ trace w' = trace (world_of_length 225) ++ cs
      ∧ Forall (λ e, real_lines e ≠ [] ∧ e_pad e < length (e_lines e)) cs
      ∧ (∀ n, length (replicate 225 ("x" +:+ nl)) = offset n →
           length cs = n ∧ Forall (λ e, e_pad e = 0) cs)
      ∧ (length (replicate 225 ("x" +:+ nl)) = target 1 →
           cs = [ {| e_index := 1; e_path := out_path "export" 1;
                     e_lines := replicate 225 ("x" +:+ nl);
                     e_pad := 0 |} ]).
Proof.
  split; [reflexivity |].
  split; [rewrite length_replicate; lia |].
  apply (C6_no_chunk_of_padding_only 1%positive "export" 226
           (world_of_length 225) (replicate 225 ("x" +:+ nl)));
    [reflexivity | rewrite length_replicate; lia].
Defined.

(** ** Facts about strings *)

Section Strings.

Implicit Types (s t p q : string).

Lemma append_cons c s t : String c s +:+ t = String c (s +:+ t).
Proof. reflexivity. Qed.

Lemma append_nil_l s : "" +:+ s = s.
Proof. reflexivity. Qed.

Lemma append_nil_r s : s +:+ "" = s.
Proof. induction s as [| c s IH]; [done |]. by rewrite append_cons, IH. Qed.

Lemma append_assoc s t p : (s +:+ t) +:+ p = s +:+ (t +:+ p).
Proof.
  induction s as [| c s IH]; [done |]. by rewrite !append_cons, IH.
Qed.

Lemma length_append s t :
  String.length (s +:+ t) = String.length s + String.length t.
Proof.
  induction s as [| c s IH]; [done |].
  rewrite append_cons. cbn [String.length]. by rewrite IH.
Qed.

Lemma chars_append s t :
  list_ascii_of_string (s +:+ t)
  = list_ascii_of_string s ++ list_ascii_of_string t.
Proof.
  induction s as [| c s IH]; [done |].
  rewrite append_cons. cbn [list_ascii_of_string]. by rewrite IH.
Qed.

Lemma chars_inj s t :
  list_ascii_of_string s = list_ascii_of_string t → s = t.
Proof.
  intros H. rewrite <- (string_of_list_ascii_of_string s),
    <- (string_of_list_ascii_of_string t). by rewrite H.
Qed.

Lemma append_inj_r s t p : s +:+ p = t +:+ p → s = t.
Proof.
  intros H. apply chars_inj.
  apply (f_equal list_ascii_of_string) in H.
  rewrite !chars_append in H. by apply app_inv_tail in H.
Qed.

Lemma append_inj_l s t p : p +:+ s = p +:+ t → s = t.
Proof.
  induction p as [| c p IH]; [done |].
  rewrite !append_cons. intros [= H]. auto.
Qed.

Lemma endswith_spec s t : endswith s t = true ↔ ∃ p, s = p +:+ t.
Proof.
  induction s as [| c s IH]; cbn [endswith].
  - rewrite orb_false_r, String.eqb_eq. split.
    + intros <-. by exists "".
    + intros [[| c p] Hp]; [done | by rewrite append_cons in Hp].
  - rewrite orb_true_iff, String.eqb_eq, IH. split.
    + intros [<- | [p ->]]; [by exists "" | by exists (String c p)].
    + intros [[| c' p] Hp]; [by left |].
      rewrite append_cons in Hp. injection Hp as <- ->. right. by exists p.
Qed.

Lemma endswith_append s t : endswith (s +:+ t) t = true.
Proof. apply endswith_spec. by exists s. Qed.

End Strings.

(** ** The names of the output files *)

Section Names.

Lemma to_uint_not_nil n : Nat.to_uint n ≠ Decimal.Nil.
Proof.
  intros H. pose proof (Unsigned.of_to n) as Hn. rewrite H in Hn.
  cbn in Hn. subst n. discriminate H.
Qed.

Lemma decimal_digits n :
  NilEmpty.uint_of_string (decimal n) = Some (Nat.to_uint n)
  ∧ decimal n ≠ "".
Proof.
  unfold decimal, NilZero.string_of_uint.
  pose proof (to_uint_not_nil n) as Hnil.
  pose proof (NilEmpty.usu (Nat.to_uint n)) as Husu.
  destruct (Nat.to_uint n); try done; cbn; done.
Qed.

(** Zeros in front do not change the number read. *)
Lemma read_zeros k : ∀ s d,
  NilEmpty.uint_of_string s = Some d →
  ∃ d', NilEmpty.uint_of_string
          (string_of_list_ascii (replicate k "0"%char) +:+ s) = Some d'
        ∧ Nat.of_uint d' = Nat.of_uint d.
Proof.
  induction k as [| k IH]; intros s d Hs; [by exists d |].
  destruct (IH s d Hs) as (d' & Hd' & Hval).
  exists (Decimal.D0 d'). cbn [replicate string_of_list_ascii].
  rewrite append_cons. cbn [NilEmpty.uint_of_string]. rewrite Hd'.
  split; [done |]. rewrite <- Hval. reflexivity.
Qed.

Lemma read_nat_format_03d n : read_nat (format_03d n) = Some n.
Proof.
  destruct (decimal_digits n) as [Hd Hne].
  destruct (read_zeros (3 - String.length (decimal n)) _ _ Hd)
    as (d' & Hd' & Hval).
  unfold read_nat, format_03d, zfill, NilZero.uint_of_string.
  destruct (_ +:+ decimal n) as [| c s] eqn:Hs.
  - apply (f_equal String.length) in Hs. rewrite length_append in Hs.
    destruct (decimal n); [done | cbn in Hs; lia].
  - rewrite Hd'. cbn [option_map]. rewrite Hval.
    by rewrite Unsigned.of_to.
Qed.

Lemma length_zeros k :
  String.length (string_of_list_ascii (replicate k "0"%char)) = k.
Proof. induction k as [| k IH]; [done |]. cbn. by rewrite IH. Qed.

Lemma length_format_03d n :
  String.length (format_03d n) = 3 `max` String.length (decimal n).
Proof.
  unfold format_03d, zfill. rewrite length_append, length_zeros. lia.
Qed.

Lemma format_03d_inj i j : format_03d i = format_03d j → i = j.
Proof.
  intros H. apply (f_equal read_nat) in H.
  rewrite !read_nat_format_03d in H. by injection H.
Qed.

Lemma out_path_inj root i j : out_path root i = out_path root j → i = j.
Proof.
  unfold out_path, path_join. intros H.
  do 3 apply append_inj_l in H. apply append_inj_r in H.
  by apply format_03d_inj.
Qed.

(** After chunks with different paths have been written, the file of
    each holds its lines. *)
Lemma written_lookup cs : ∀ fs e,
  NoDup (map e_path cs) → e ∈ cs →
  written cs fs !! e_path e = Some (joined (e_lines e)).
Proof.
  induction cs as [| x cs IH] using rev_ind; intros fs e Hnd He.
  { by apply elem_of_nil in He. }
  rewrite written_app. cbn [written foldl].
  rewrite map_app in Hnd. apply NoDup_app in Hnd as (Hnd & Hx & _).
  apply elem_of_app in He as [He | He].
  - rewrite lookup_insert_ne; [by apply IH |].
    intros Heq. apply (Hx (e_path e)).
    + apply list_elem_of_In, in_map_iff. exists e.
      split; [done |]. by apply list_elem_of_In.
    + rewrite <- Heq. cbn. apply list_elem_of_here.
  - apply list_elem_of_singleton in He as ->. apply lookup_insert_eq.
Qed.

Lemma chunks_paths_NoDup root fuel ls index pos :
  NoDup (map e_path (chunks_from fuel ls root index pos)).
Proof.
  assert (Hp : map e_path (chunks_from fuel ls root index pos)
               = map (out_path root)
                   (map e_index (chunks_from fuel ls root index pos))).
  { rewrite map_map. apply map_ext_Forall.
    apply chunks_Forall. by intros. }
  rewrite Hp, chunks_index.
  apply NoDup_fmap_2_strong; [| apply NoDup_seq].
  intros i j _ _. apply out_path_inj.
Qed.

End Names.

(** C7: the indices of the chunks written by a call are 1, 2, 3, ... in
    order, and [index] ends one past the last; the chunk of index [i]
    is written to [part_] followed by [i] in decimal digits, with zeros
    in front up to three digits, followed by [.txt], under the export
    root, and that file holds the chunk when the call returns. *)
Theorem C7_indices_and_names l root fuel w ls :
  heap w !! l = Some ls →
  length ls < fuel →
  (∃ index' pos' w' cs,
     write_exports fuel l root w = Some (index', pos', w')
     ∧ trace w' = trace w ++ cs
     ∧ map e_index cs = seq 1 (length cs)
     ∧ index' = 1 + length cs
     ∧ Forall (λ e,
         e_path e
         = root +:+ "/" +:+ "part_" +:+ format_03d (e_index e) +:+ ".txt"
         ∧ files w' !! e_path e = Some (joined (e_lines e))) cs)
  ∧ (∀ i, 3 ≤ String.length (format_03d i)
          ∧ read_nat (format_03d i) = Some i
          ∧ ∃ k, format_03d i
                 = string_of_list_ascii (replicate k "0"%char) +:+ decimal i
                 ∧ (k = 0 ∨ String.length (format_03d i) = 3))
  ∧ format_03d 1 = "001" ∧ format_03d 2 = "002".
Proof.
  intros Hl Hfuel. split_and!; [| | done | done].
  - destruct (write_exports_run l root fuel w ls Hl Hfuel)
      as (pos' & w' & Hrun & _ & Htr & Hfs & _).
    eexists _, pos', w', _.
    split_and!; [exact Hrun | exact Htr | apply chunks_index | done |].
    apply Forall_forall. intros e He. split.
    + revert e He. apply Forall_forall, chunks_Forall. by intros.
    + rewrite Hfs. apply written_lookup; [| done].
      apply chunks_paths_NoDup.
  - intros i. split_and!.
    + rewrite length_format_03d. lia.
    + apply read_nat_format_03d.
    + exists (3 - String.length (decimal i)). split; [done |].
      rewrite length_format_03d. lia.
Qed.

Lemma C7_witness :
  heap demo_world !! 1%positive = Some two_lines
  ∧ length two_lines < 3
  ∧ (∃ index' pos' w' cs,
       write_exports 3 1%positive "export" demo_world
       = Some (index', pos', w')
       ∧ trace w' = trace demo_world ++ cs
       ∧ map e_index cs = seq 1 (length cs)
       ∧ index' = 1 + length cs
       ∧ Forall (λ e,
           e_path e
           = "export" +:+ "/" +:+ "part_" +:+ format_03d (e_index e)
               +:+ ".txt"
           ∧ files w' !! e_path e = Some (joined (e_lines e))) cs)
  ∧ (∀ i, 3 ≤ String.length (format_03d i)
          ∧ read_nat (format_03d i) = Some i
          ∧ ∃ k, format_03d i
                 = string_of_list_ascii (replicate k "0"%char) +:+ decimal i
                 ∧ (k = 0 ∨ String.length (format_03d i) = 3))
  ∧ format_03d 1 = "001" ∧ format_03d 2 = "002".
Proof.
  split; [reflexivity |]. split; [cbn; lia |].
  apply (C7_indices_and_names 1%positive "export" 3 demo_world two_lines);
    [reflexivity | cbn; lia].
Defined.

(** ** The line collector *)

Section Collector.

Variable disk : string → reading.

Lemma foldl_append_lines (f : string → string) content : ∀ lines,
  foldl (λ lines line, lines ++ [f line]) lines content
  = lines ++ map f content.
Proof.
  induction content as [| x content IH]; intros lines; cbn [foldl map].
  - by rewrite app_nil_r.
  - by rewrite IH, <- app_assoc.
Qed.

Lemma read_one_eq lines printed path :
  read_one disk (lines, printed) path
  = (lines ++ contribution disk path, printed ++ report disk path).
Proof.
  unfold read_one, contribution, report.
  rewrite foldl_append_lines. f_equal.
  - by rewrite <- !app_assoc.
  - destruct (raised (disk path)); [done | by rewrite app_nil_r].
Qed.

Lemma foldl_read_one file_list : ∀ lines printed,
  foldl (read_one disk) (lines, printed) file_list
  = (lines ++ concat (map (contribution disk) file_list),
     printed ++ concat (map (report disk) file_list)).
Proof.
  induction file_list as [| path file_list IH]; intros lines printed;
    cbn [foldl map concat].
  - by rewrite !app_nil_r.
  - by rewrite read_one_eq, IH, <- !app_assoc.
Qed.

Lemma read_all_lines_eq file_list :
  read_all_lines disk file_list
  = (concat (map (contribution disk) file_list),
     concat (map (report disk) file_list)).
Proof. unfold read_all_lines. by rewrite foldl_read_one. Qed.

End Collector.

(** ** Lines and their line feeds *)

Section Newlines.

Implicit Types (s body cur text : string).

Lemma endswith_other_char s c :
  c ≠ ascii_of_nat 10 → endswith (s +:+ String c "") nl = false.
Proof.
  intros Hc. apply not_true_is_false. intros H.
  apply endswith_spec in H as [p Hp].
  apply (f_equal list_ascii_of_string) in Hp.
  rewrite !chars_append in Hp. cbn in Hp.
  apply app_inj_tail in Hp as [_ Hp]. done.
Qed.

Lemma one_trailing_newline_intro body :
  endswith body nl = false → one_trailing_newline (body +:+ nl) = true.
Proof.
  intros Hbody. unfold one_trailing_newline.
  rewrite endswith_append. cbn [andb]. apply negb_true_iff.
  apply not_true_is_false. intros H.
  apply endswith_spec in H as [p Hp].
  rewrite <- append_assoc in Hp. apply append_inj_r in Hp.
  assert (endswith body nl = true); [| congruence].
  apply endswith_spec. by exists p.
Qed.

Lemma with_newline_body s :
  endswith s nl = false → with_newline s = s +:+ nl.
Proof. unfold with_newline. by intros ->. Qed.

Lemma with_newline_id s : endswith s nl = true → with_newline s = s.
Proof. unfold with_newline. by intros ->. Qed.

(** Every line of the iteration, once line 20 has seen to its line
    feed, is a body that does not end with a line feed, followed by
    one. *)
Lemma iter_lines_from_bodies text : ∀ cur,
  endswith cur nl = false →
  Forall (λ line, ∃ body, with_newline line = body +:+ nl
                          ∧ endswith body nl = false)
         (iter_lines_from cur text).
Proof.
  induction text as [| c text IH]; intros cur Hcur;
    cbn [iter_lines_from].
  - destruct cur as [| c cur]; [done |].
    constructor; [| done]. exists (String c cur).
    by rewrite with_newline_body.
  - destruct (Ascii.eqb_spec c (ascii_of_nat 10)) as [-> | Hc].
    + constructor; [| by apply IH]. exists cur.
      by rewrite with_newline_id by apply endswith_append.
    + apply IH. by apply endswith_other_char.
Qed.

Lemma header_body path :
  endswith ("-- " +:+ path +:+ " --") nl = false.
Proof.
  change " --" with (" -" +:+ "-").
  rewrite <- (append_assoc path), <- (append_assoc "-- ").
  by apply endswith_other_char.
Qed.

Lemma contribution_newlines disk path :
  Forall (λ s, one_trailing_newline s = true) (contribution disk path).
Proof.
  unfold contribution. constructor.
  - unfold header. rewrite <- !append_assoc.
    apply one_trailing_newline_intro. rewrite append_assoc.
    apply header_body.
  - apply Forall_app. split; [| by repeat constructor].
    apply Forall_map.
    eapply Forall_impl; [by apply (iter_lines_from_bodies _ "") |].
    intros line (body & -> & Hbody).
    by apply one_trailing_newline_intro.
Qed.

End Newlines.

(** ** The claims about the line collector *)

(** C8, as the specification words it, fails: a file whose read fails
    after a line has been handed out contributes that line too, between
    its header and the separator. *)
Lemma C8_counterexample :
  raised (flaky_disk "f") = Some "Input/output error"
  ∧ (read_all_lines flaky_disk ["f"]).1 = [header "f"; "a" +:+ nl; nl]
  ∧ (read_all_lines flaky_disk ["f"]).1 ≠ [header "f"; nl].
Proof. split; [reflexivity |]. split; [reflexivity | discriminate]. Qed.

(** C8, amended: a file whose read fails is reported (its name and the
    cause are printed) and the files after it are read as usual; it
    contributes its header line, the lines handed out before the
    failure, each with its line feed, and the separator line, in this
    order; when nothing was handed out, as for a file that cannot be
    opened, that is the header line and the separator line alone; the
    separator line ends the contribution of every file, read or not. *)
Theorem C8_failed_read_reported_and_skipped
    disk before path after exc :
  raised (disk path) = Some exc →
  (read_all_lines disk (before ++ path :: after)).1
  = (read_all_lines disk before).1
      ++ (header path
            :: map with_newline (iter_lines (delivered (disk path)))
            ++ [nl])
      ++ (read_all_lines disk after).1
  ∧ (read_all_lines disk (before ++ path :: after)).2
    = (read_all_lines disk before).2
        ++ [error_message path exc]
        ++ (read_all_lines disk after).2
  ∧ (delivered (disk path) = "" →
       (read_all_lines disk [path]).1 = [header path; nl])
  ∧ ∀ other, ∃ content,
      (read_all_lines disk [other]).1 = header other :: content ++ [nl].
Proof.
  intros Hexc. rewrite !read_all_lines_eq. cbn [fst snd].
  rewrite !map_app, !concat_app. cbn [map concat].
  rewrite !app_nil_r. split_and!.
  - done.
  - unfold report at 2. by rewrite Hexc.
  - intros Hnone. unfold contribution. by rewrite Hnone.
  - intros other. rewrite read_all_lines_eq. cbn [fst map concat].
    rewrite app_nil_r. unfold contribution. by eexists.
Qed.

Lemma C8_witness :
  raised (locked_disk "f") = Some "Permission denied"
  ∧ (read_all_lines locked_disk ([] ++ "f" :: ["g"])).1
    = (read_all_lines locked_disk []).1
        ++ (header "f"
              :: map with_newline (iter_lines (delivered (locked_disk "f")))
              ++ [nl])
        ++ (read_all_lines locked_disk ["g"]).1
  ∧ (read_all_lines locked_disk ([] ++ "f" :: ["g"])).2
    = (read_all_lines locked_disk []).2
        ++ [error_message "f" "Permission denied"]
        ++ (read_all_lines locked_disk ["g"]).2
  ∧ (delivered (locked_disk "f") = "" →
       (read_all_lines locked_disk ["f"]).1 = [header "f"; nl])
  ∧ ∀ other, ∃ content,
      (read_all_lines locked_disk [other]).1
      = header other :: content ++ [nl].
Proof.
  split; [reflexivity |].
  apply (C8_failed_read_reported_and_skipped locked_disk [] "f" ["g"]
           "Permission denied").
  reflexivity.
Defined.

(** C9: every string of the list returned ends with a line feed, and
    with one only; line 20 adds one to a line that does not end with
    one, and leaves a line that does as it is. *)
Theorem C9_every_line_one_trailing_newline disk file_list :
  Forall (λ s, one_trailing_newline s = true)
         (read_all_lines disk file_list).1
  ∧ ∀ line,
      (endswith line nl = false → with_newline line = line +:+ nl)
      ∧ (endswith line nl = true → with_newline line = line).
Proof.
  split.
  - rewrite read_all_lines_eq. cbn [fst].
    induction file_list as [| path file_list IH]; cbn [map concat];
      [done |].
    apply Forall_app. split; [apply contribution_newlines | done].
  - intros line. split; [apply with_newline_body | apply with_newline_id].
Qed.

(** ** The layout of the chunks of a call *)

Section Layout.

Variable root : string.
Implicit Types (ls : list string) (e : emitted).

Lemma offset_le k n : k ≤ n → offset k ≤ offset n.
Proof.
  intros Hle. destruct (decide (k = n)) as [-> | Hne]; [done |].
  apply Nat.lt_le_incl, offset_lt. lia.
Qed.

Lemma offset_pairs m :
  offset (2 * m) = 405 * m ∧ offset (2 * m + 1) = 405 * m + 225.
Proof.
  induction m as [| m [IH0 IH1]]; [done |].
  replace (2 * S m) with (S (2 * m + 1)) by lia.
  replace (S (2 * m + 1) + 1) with (S (S (2 * m + 1))) by lia.
  cbn [offset]. rewrite IH1, !target_parity.
  replace (Nat.odd (S (2 * m + 1))) with false.
  2:{ symmetry. rewrite Nat.odd_succ, Nat.add_1_r, Nat.even_succ.
      rewrite <- Nat.negb_even, Nat.even_mul. done. }
  replace (Nat.odd (S (S (2 * m + 1)))) with true.
  2:{ symmetry. rewrite Nat.odd_succ, Nat.even_succ, Nat.add_1_r.
      rewrite Nat.odd_succ, Nat.even_mul. done. }
  lia.
Qed.

Lemma offset_closed k : offset k = 405 * (k / 2) + 225 * (k mod 2).
Proof.
  pose proof (Nat.div_mod_eq k 2) as Hk.
  pose proof (Nat.mod_upper_bound k 2) as Hm.
  destruct (offset_pairs (k / 2)) as [H0 H1].
  destruct (decide (k mod 2 = 0)) as [Hz | Hnz].
  - rewrite Hz in *. rewrite Nat.add_0_r in Hk. rewrite Hk at 1. lia.
  - assert (k mod 2 = 1) as Ho by lia. rewrite Ho in *.
    rewrite Hk at 1. lia.
Qed.

(** The chunks are enough to hold the list. *)
Lemma chunks_cover fuel : ∀ ls k,
  length ls - offset k < fuel →
  length ls
  ≤ offset (k + length (chunks_from fuel ls root (S k) (offset k))).
Proof.
  induction fuel as [| fuel IH]; intros ls k Hfuel; [lia |].
  cbn [chunks_from].
  destruct (Nat.ltb_spec (offset k) (length ls)) as [Hlt | Hge].
  - replace (S k + 1) with (S (S k)) by lia.
    change (offset k + target (S k)) with (offset (S k)).
    pose proof (target_pos (S k)). cbn [length].
    replace (k + S (length (chunks_from fuel ls root (S (S k)) (offset (S k)))))
      with (S k + length (chunks_from fuel ls root (S (S k)) (offset (S k))))
      by lia.
    apply IH. cbn [offset]. lia.
  - cbn [length]. by rewrite Nat.add_0_r.
Qed.

(** The content of a chunk, line by line: the lines of the list from
    [pos] on while there are some, and line feeds after them. *)
Lemma chunk_of_lookup ls index pos i :
  i < target index →
  e_lines (chunk_of ls root index pos) !! i
  = if pos + i <? length ls then ls !! (pos + i) else Some nl.
Proof.
  intros Hi. unfold chunk_of. cbn [e_lines].
  pose proof (length_slice ls pos (target index)) as Hlen.
  destruct (Nat.ltb_spec (pos + i) (length ls)) as [Hlt | Hge].
  - rewrite lookup_app_l by lia.
    unfold slice. replace (pos + target index - pos) with (target index)
      by lia.
    by rewrite lookup_take_lt, lookup_drop.
  - rewrite lookup_app_r by lia. apply lookup_replicate_2. lia.
Qed.

(** The final value of [pos] is the offset after the last chunk. *)
Lemma while_loop_offset l fuel : ∀ k w index' pos' w',
  while_loop fuel l root (S k) (offset k) w = Some (index', pos', w') →
  pos' = offset (index' - 1).
Proof.
  induction fuel as [| fuel IH]; intros k w index' pos' w'; [done |].
  cbn [while_loop]. destruct (heap w !! l) as [ls |] eqn:Hl; [| done].
  cbn [mbind option_bind].
  destruct (offset k <? length ls).
  - rewrite (loop_body_run _ _ _ _ _ _ Hl). cbn [mbind option_bind].
    replace (S k + 1) with (S (S k)) by lia.
    change (offset k + target (S k)) with (offset (S k)). apply IH.
  - intros [= <- <- <-]. by rewrite Nat.sub_1_r.
Qed.

(** The chunks of a whole call, with their places. *)
Lemma chunks_layout fuel ls :
  length ls < fuel →
  length ls ≤ offset (length (chunks_from fuel ls root 1 0))
  ∧ ∀ k e, chunks_from fuel ls root 1 0 !! k = Some e →
      e = chunk_of ls root (S k) (offset k) ∧ offset k < length ls.
Proof.
  intros Hfuel. split.
  - apply (chunks_cover fuel ls 0). cbn [offset]. lia.
  - intros k e He. by apply (chunks_lookup root fuel ls 0 k e) in He.
Qed.

End Layout.

Section Layout_facts.

Variable root : string.
Implicit Types (ls : list string) (e : emitted).

(** Before the last chunk nothing is padded; the last chunk is padded
    up to the offset behind it. *)
Lemma chunks_pads fuel ls cs0 e :
  length ls < fuel →
  chunks_from fuel ls root 1 0 = cs0 ++ [e] →
  Forall (λ e', e_pad e' = 0) cs0
  ∧ e_pad e = offset (length (cs0 ++ [e])) - length ls.
Proof.
  intros Hfuel Hcs. destruct (chunks_layout root fuel ls Hfuel) as [Hcov Hat].
  rewrite Hcs in Hcov, Hat. rewrite length_app in *. cbn [length] in *.
  split.
  - apply Forall_lookup. intros k e' He'.
    pose proof (lookup_lt_Some _ _ _ He') as Hk.
    destruct (Hat k e') as [-> _]; [by apply lookup_app_l_Some |].
    destruct (lookup_lt_is_Some_2 (cs0 ++ [e]) (S k)) as [e2 He2].
    { rewrite length_app. cbn. lia. }
    apply Hat in He2 as [_ Hnext]. cbn [offset] in Hnext.
    rewrite length_chunks_pad. lia.
  - destruct (Hat (length cs0) e) as [-> Hlast].
    { rewrite lookup_app_r by lia. by rewrite Nat.sub_diag. }
    replace (length cs0 + 1) with (S (length cs0)) in * by lia.
    cbn [offset] in *. rewrite length_chunks_pad. lia.
Qed.

Lemma chunks_concat fuel ls :
  length ls < fuel →
  concat (map e_lines (chunks_from fuel ls root 1 0))
  = ls ++ replicate
            (offset (length (chunks_from fuel ls root 1 0)) - length ls) nl.
Proof.
  intros Hfuel.
  assert (Hreal : concat (map real_lines (chunks_from fuel ls root 1 0))
                  = ls).
  { rewrite chunks_real by lia. apply drop_0. }
  assert (Hsplit : Forall (λ e, e_lines e
                                = real_lines e ++ replicate (e_pad e) nl)
                     (chunks_from fuel ls root 1 0)).
  { apply chunks_Forall. intros index pos _. apply chunk_of_split. }
  destruct (chunks_from fuel ls root 1 0) as [| e0 cs0 _] eqn:Hcs
    using rev_ind.
  - cbn in *. by rewrite <- Hreal.
  - destruct (chunks_pads fuel ls cs0 e0 Hfuel Hcs) as [Hzero Hpad].
    apply Forall_app in Hsplit as [Hs0 Hs1].
    apply Forall_inv in Hs1. cbn beta in Hs1.
    rewrite map_app, concat_app in Hreal. cbn [map concat] in Hreal.
    rewrite app_nil_r in Hreal.
    rewrite map_app, concat_app. cbn [map concat].
    rewrite app_nil_r, Hs1, <- Hpad, app_assoc.
    f_equal. rewrite <- Hreal. f_equal. f_equal.
    apply map_ext_Forall. apply Forall_lookup. intros k e He.
    pose proof (Forall_lookup_1 _ _ _ _ Hs0 He) as Hse.
    pose proof (Forall_lookup_1 _ _ _ _ Hzero He) as Hze.
    cbn beta in Hse, Hze. rewrite Hze in Hse. cbn [replicate] in Hse.
    by rewrite app_nil_r in Hse.
Qed.

(** Every position of the list lies in one chunk. *)
Lemma offset_locate n j :
  j < offset n → ∃ k, k < n ∧ offset k ≤ j ∧ j < offset (S k).
Proof.
  induction n as [| n IH]; cbn [offset]; [lia |].
  intros Hj. destruct (decide (j < offset n)) as [Hlt | Hge].
  - destruct (IH Hlt) as (k & ? & ? & ?). exists k. split_and!; [lia | done..].
  - exists n. cbn [offset]. lia.
Qed.

Lemma written_cons e cs (fs : gmap string string) :
  written (e :: cs) fs = written cs (<[e_path e := joined (e_lines e)]> fs).
Proof. reflexivity. Qed.

Lemma written_lookup_other cs : ∀ (fs : gmap string string) p,
  (∀ e, e ∈ cs → e_path e ≠ p) → written cs fs !! p = fs !! p.
Proof.
  induction cs as [| e cs IH]; intros fs p Hp; [done |].
  rewrite written_cons, IH.
  - apply lookup_insert_ne, Hp, list_elem_of_here.
  - intros e' He'. apply Hp. by apply list_elem_of_further.
Qed.


Lemma written_twice cs (fs : gmap string string) :
  NoDup (map e_path cs) → written cs (written cs fs) = written cs fs.
Proof.
  intros Hnd. apply map_eq. intros p.
  destruct (decide (p ∈ map e_path cs)) as [Hin | Hno].
  - apply list_elem_of_In, in_map_iff in Hin as (e & <- & He).
    apply list_elem_of_In in He. by rewrite !written_lookup.
  - rewrite !written_lookup_other; [done | |];
      intros e He Hp; apply Hno; apply list_elem_of_In, in_map_iff;
      exists e; by rewrite <- list_elem_of_In.
Qed.


End Layout_facts.

(** ** More about a call of [write_exports] *)

(** Only the last chunk of a call is padded: every chunk before it is
    a slice of the input as it is, and the last one is padded with as
    many line feeds as the list falls short of the offset behind it. *)
Theorem padding_only_in_last_chunk l root fuel w ls :
  heap w !! l = Some ls →
  length ls < fuel →
  ∃ index' pos' w' cs,
    write_exports fuel l root w = Some (index', pos', w')
    ∧ trace w' = trace w ++ cs
    ∧ ∀ cs0 e, cs = cs0 ++ [e] →
        Forall (λ e', e_pad e' = 0) cs0
        ∧ e_pad e = offset (length cs) - length ls.
Proof.
  intros Hl Hfuel.
  destruct (write_exports_run l root fuel w ls Hl Hfuel)
    as (pos' & w' & Hrun & _ & Htr & _).
  eexists _, pos', w', _. split_and!; [exact Hrun | exact Htr |].
  intros cs0 e Hcs. rewrite Hcs. by apply (chunks_pads root fuel).
Qed.

Lemma padding_only_in_last_chunk_witness :
  heap (world_of_length 226) !! 1%positive
    = Some (replicate 226 ("x" +:+ nl))
  ∧ length (replicate 226 ("x" +:+ nl)) < 227
  ∧ ∃ index' pos' w' cs,
      write_exports 227 1%positive "export" (world_of_length 226)
      = Some (index', pos', w')
      ∧ trace w' = trace (world_of_length 226) ++ cs
      ∧ ∀ cs0 e, cs = cs0 ++ [e] →
          Forall (λ e', e_pad e' = 0) cs0
          ∧ e_pad e
            = offset (length cs) - length (replicate 226 ("x" +:+ nl)).
Proof.
  split; [reflexivity |].
  split; [rewrite length_replicate; lia |].
  apply (padding_only_in_last_chunk 1%positive "export" 227
           (world_of_length 226) (replicate 226 ("x" +:+ nl)));
    [reflexivity | rewrite length_replicate; lia].
Defined.

(** The number of chunks of a call is the least [n] for which the
    first [n] targets add up to the length of the list or more, and
    [pos] ends at that sum, which is 405 for every two chunks and 225
    more for an odd one. *)
Theorem number_of_chunks l root fuel w ls :
  heap w !! l = Some ls →
  length ls < fuel →
  ∃ pos' w' cs,
    write_exports fuel l root w = Some (1 + length cs, pos', w')
    ∧ trace w' = trace w ++ cs
    ∧ pos' = offset (length cs)
    ∧ pos' = 405 * (length cs / 2) + 225 * (length cs mod 2)
    ∧ length ls ≤ pos'
    ∧ ∀ m, length ls ≤ offset m → length cs ≤ m.
Proof.
  intros Hl Hfuel.
  destruct (write_exports_run l root fuel w ls Hl Hfuel)
    as (pos' & w' & Hrun & Hend & Htr & _).
  assert (Hpos : pos' = offset (length (chunks_from fuel ls root 1 0))).
  { unfold write_exports in Hrun.
    apply (while_loop_offset root l fuel 0) in Hrun.
    rewrite Hrun. f_equal. lia. }
  eexists pos', w', _.
  split_and!; [exact Hrun | exact Htr | exact Hpos | | exact Hend |].
  - rewrite Hpos. apply offset_closed.
  - intros m Hm. apply Nat.nlt_ge. intros Hlt.
    destruct (lookup_lt_is_Some_2 (chunks_from fuel ls root 1 0) m Hlt)
      as [e He].
    apply (chunks_layout root fuel ls Hfuel) in He as [_ He]. lia.
Qed.

Lemma number_of_chunks_witness :
  heap (world_of_length 226) !! 1%positive
    = Some (replicate 226 ("x" +:+ nl))
  ∧ length (replicate 226 ("x" +:+ nl)) < 227
  ∧ ∃ pos' w' cs,
      write_exports 227 1%positive "export" (world_of_length 226)
      = Some (1 + length cs, pos', w')
      ∧ trace w' = trace (world_of_length 226) ++ cs
      ∧ pos' = offset (length cs)
      ∧ pos' = 405 * (length cs / 2) + 225 * (length cs mod 2)
      ∧ length (replicate 226 ("x" +:+ nl)) ≤ pos'
      ∧ ∀ m, length (replicate 226 ("x" +:+ nl)) ≤ offset m →
             length cs ≤ m.
Proof.
  split; [reflexivity |].
  split; [rewrite length_replicate; lia |].
  apply (number_of_chunks 1%positive "export" 227
           (world_of_length 226) (replicate 226 ("x" +:+ nl)));
    [reflexivity | rewrite length_replicate; lia].
Defined.

(** The chunks of a call, one after the other, are the input list
    followed by line feeds only, and hold as many lines as the targets
    of the chunks add up to. *)
Theorem chunks_are_input_then_padding l root fuel w ls :
  heap w !! l = Some ls →
  length ls < fuel →
  ∃ index' pos' w' cs,
    write_exports fuel l root w = Some (index', pos', w')
    ∧ trace w' = trace w ++ cs
    ∧ concat (map e_lines cs)
      = ls ++ replicate (offset (length cs) - length ls) nl
    ∧ length (concat (map e_lines cs)) = offset (length cs).
Proof.
  intros Hl Hfuel.
  destruct (write_exports_run l root fuel w ls Hl Hfuel)
    as (pos' & w' & Hrun & _ & Htr & _).
  eexists _, pos', w', _. split_and!; [exact Hrun | exact Htr | |].
  - by apply chunks_concat.
  - rewrite chunks_concat by done.
    rewrite length_app, length_replicate.
    destruct (chunks_layout root fuel ls Hfuel) as [Hcov _]. lia.
Qed.

Lemma chunks_are_input_then_padding_witness :
  heap demo_world !! 1%positive = Some two_lines
  ∧ length two_lines < 3
  ∧ ∃ index' pos' w' cs,
      write_exports 3 1%positive "export" demo_world
      = Some (index', pos', w')
      ∧ trace w' = trace demo_world ++ cs
      ∧ concat (map e_lines cs)
        = two_lines ++ replicate (offset (length cs) - length two_lines) nl
      ∧ length (concat (map e_lines cs)) = offset (length cs).
Proof.
  split; [reflexivity |]. split; [cbn; lia |].
  apply (chunks_are_input_then_padding 1%positive "export" 3 demo_world
           two_lines); [reflexivity | cbn; lia].
Defined.

(** Where every line goes: line [i] of the chunk at place [k] is line
    [offset k + i] of the input when the input has such a line, and a
    line feed otherwise; and every line of the input is found in the
    chunk whose range of offsets holds its position. *)
Theorem chunk_lines_by_position l root fuel w ls :
  heap w !! l = Some ls →
  length ls < fuel →
  ∃ index' pos' w' cs,
    write_exports fuel l root w = Some (index', pos', w')
    ∧ trace w' = trace w ++ cs
    ∧ (∀ k e i, cs !! k = Some e → i < target (k + 1) →
         e_lines e !! i
         = if offset k + i <? length ls then ls !! (offset k + i)
           else Some nl)
    ∧ (∀ j x, ls !! j = Some x →
         ∃ k e, cs !! k = Some e ∧ offset k ≤ j ∧ j < offset (k + 1)
                ∧ e_lines e !! (j - offset k) = Some x).
Proof.
  intros Hl Hfuel.
  destruct (write_exports_run l root fuel w ls Hl Hfuel)
    as (pos' & w' & Hrun & _ & Htr & _).
  destruct (chunks_layout root fuel ls Hfuel) as [Hcov Hat].
  eexists _, pos', w', _. split_and!; [exact Hrun | exact Htr | |].
  - intros k e i He Hi. apply Hat in He as [-> _].
    replace (k + 1) with (S k) in Hi by lia. by apply chunk_of_lookup.
  - intros j x Hj. pose proof (lookup_lt_Some _ _ _ Hj) as Hlt.
    destruct (offset_locate (length (chunks_from fuel ls root 1 0)) j)
      as (k & Hk & Hlo & Hhi); [lia |].
    destruct (lookup_lt_is_Some_2 _ _ Hk) as [e He].
    exists k, e. replace (k + 1) with (S k) by lia.
    split_and!; [done..|].
    apply Hat in He as [-> _]. cbn [offset] in Hhi.
    rewrite chunk_of_lookup by lia.
    replace (offset k + (j - offset k)) with j by lia.
    by rewrite (proj2 (Nat.ltb_lt _ _) Hlt).
Qed.

Lemma chunk_lines_by_position_witness :
  heap demo_world !! 1%positive = Some two_lines
  ∧ length two_lines < 3
  ∧ ∃ index' pos' w' cs,
      write_exports 3 1%positive "export" demo_world
      = Some (index', pos', w')
      ∧ trace w' = trace demo_world ++ cs
      ∧ (∀ k e i, cs !! k = Some e → i < target (k + 1) →
           e_lines e !! i
           = if offset k + i <? length two_lines
             then two_lines !! (offset k + i) else Some nl)
      ∧ (∀ j x, two_lines !! j = Some x →
           ∃ k e, cs !! k = Some e ∧ offset k ≤ j ∧ j < offset (k + 1)
                  ∧ e_lines e !! (j - offset k) = Some x).
Proof.
  split; [reflexivity |]. split; [cbn; lia |].
  apply (chunk_lines_by_position 1%positive "export" 3 demo_world
           two_lines); [reflexivity | cbn; lia].
Defined.



(** A second call on the same list and root goes through the same
    indices and positions and leaves every file as the first call left
    it. *)
Theorem second_call_same_files l root fuel w ls :
  heap w !! l = Some ls →
  length ls < fuel →
  ∃ index' pos' w1 w2,
    write_exports fuel l root w = Some (index', pos', w1)
    ∧ write_exports fuel l root w1 = Some (index', pos', w2)
    ∧ files w2 = files w1
    ∧ dirs w2 = dirs w1.
Proof.
  intros Hl Hfuel.
  destruct (write_exports_run l root fuel w ls Hl Hfuel)
    as (pos1 & w1 & Hrun1 & _ & _ & Hfs1 & Hd1 & Hsub).
  assert (Hl1 : heap w1 !! l = Some ls) by (by eapply lookup_weaken).
  destruct (write_exports_run l root fuel w1 ls Hl1 Hfuel)
    as (pos2 & w2 & Hrun2 & _ & _ & Hfs2 & Hd2 & _).
  assert (pos1 = offset (length (chunks_from fuel ls root 1 0))) as Hp1.
  { unfold write_exports in Hrun1.
    apply (while_loop_offset root l fuel 0) in Hrun1.
    rewrite Hrun1. f_equal. lia. }
  assert (pos2 = offset (length (chunks_from fuel ls root 1 0))) as Hp2.
  { unfold write_exports in Hrun2.
    apply (while_loop_offset root l fuel 0) in Hrun2.
    rewrite Hrun2. f_equal. lia. }
  eexists _, pos1, w1, w2. split_and!.
  - exact Hrun1.
  - rewrite Hp1, <- Hp2. exact Hrun2.
  - rewrite Hfs2, Hfs1. apply written_twice, chunks_paths_NoDup.
  - rewrite Hd2, Hd1. by rewrite (assoc_L (∪)), (idemp_L (∪)).
Qed.

Lemma second_call_same_files_witness :
  heap demo_world !! 1%positive = Some two_lines
  ∧ length two_lines < 3
  ∧ ∃ index' pos' w1 w2,
      write_exports 3 1%positive "export" demo_world
      = Some (index', pos', w1)
      ∧ write_exports 3 1%positive "export" w1 = Some (index', pos', w2)
      ∧ files w2 = files w1
      ∧ dirs w2 = dirs w1.
Proof.
  split; [reflexivity |]. split; [cbn; lia |].
  apply (second_call_same_files 1%positive "export" 3 demo_world
           two_lines); [reflexivity | cbn; lia].
Defined.

(** ** More about the line collector *)

Section Collected.

Implicit Types (s t cur text : string) (disk : string → reading).

Lemma joined_app (a b : list string) :
  joined (a ++ b) = joined a +:+ joined b.
Proof.
  induction a as [| x a IH]; [done |].
  cbn [app joined fold_right]. fold (joined (a ++ b)). fold (joined a).
  by rewrite IH, append_assoc.
Qed.

Lemma joined_cons x (a : list string) : joined (x :: a) = x +:+ joined a.
Proof. reflexivity. Qed.

Lemma append_not_empty s c t : s +:+ String c t ≠ "".
Proof.
  intros H. apply (f_equal String.length) in H.
  rewrite length_append in H. cbn in H. lia.
Qed.

(** Whether a string ends with a line feed is decided by its last
    character. *)
Lemma endswith_nl_append s c t :
  endswith (s +:+ String c t) nl = endswith (String c t) nl.
Proof.
  induction s as [| a s IH]; [done |].
  rewrite append_cons. cbn [endswith]. rewrite IH.
  replace (String.eqb (String a (s +:+ String c t)) nl) with false; [done |].
  symmetry. apply String.eqb_neq. unfold nl. intros [= _ H].
  by apply append_not_empty in H.
Qed.

Lemma iter_lines_from_joined text : ∀ cur,
  joined (iter_lines_from cur text) = cur +:+ text.
Proof.
  induction text as [| c text IH]; intros cur; cbn [iter_lines_from].
  - rewrite append_nil_r. destruct cur; [done |].
    rewrite joined_cons. apply append_nil_r.
  - destruct (Ascii.eqb_spec c (ascii_of_nat 10)) as [-> | Hc].
    + rewrite joined_cons, IH. unfold nl. by rewrite append_assoc.
    + rewrite IH. by rewrite append_assoc.
Qed.

Lemma iter_lines_from_with_newline text : ∀ cur,
  endswith cur nl = false →
  joined (map with_newline (iter_lines_from cur text))
  = if endswith (cur +:+ text) nl || String.eqb (cur +:+ text) ""
    then cur +:+ text else (cur +:+ text) +:+ nl.
Proof.
  induction text as [| c text IH]; intros cur Hcur; cbn [iter_lines_from].
  - rewrite append_nil_r, Hcur. destruct cur as [| a cur]; [done |].
    cbn [map orb String.eqb]. rewrite joined_cons, with_newline_body by done.
    apply append_nil_r.
  - replace (String.eqb (cur +:+ String c text) "") with false.
    2:{ symmetry. apply String.eqb_neq, append_not_empty. }
    rewrite orb_false_r, endswith_nl_append.
    destruct (Ascii.eqb_spec c (ascii_of_nat 10)) as [-> | Hc].
    + cbn [map]. rewrite joined_cons.
      rewrite with_newline_id by apply endswith_append.
      rewrite IH by done. rewrite !append_nil_l.
      destruct text as [| d text].
      * replace (endswith (String (ascii_of_nat 10) "") nl) with true
          by reflexivity.
        replace (endswith "" nl || String.eqb "" "") with true
          by reflexivity.
        unfold nl. by rewrite append_nil_r.
      * replace (String.eqb (String d text) "") with false by reflexivity.
        rewrite orb_false_r.
        change (String (ascii_of_nat 10) (String d text))
          with (nl +:+ String d text).
        rewrite endswith_nl_append.
        destruct (endswith (String d text) nl);
          by rewrite ?append_assoc.
    + rewrite IH by (by apply endswith_other_char).
      replace ((cur +:+ String c "") +:+ text) with (cur +:+ String c text)
        by (by rewrite append_assoc).
      replace (String.eqb (cur +:+ String c text) "") with false.
      2:{ symmetry. apply String.eqb_neq, append_not_empty. }
      by rewrite orb_false_r, endswith_nl_append.
Qed.


End Collected.

(** Reading one list of files after another gives the lines of the
    first followed by the lines of the second, and the same for what
    is printed: what a file contributes does not depend on the files
    around it. *)
Theorem read_all_lines_app disk before after :
  read_all_lines disk (before ++ after)
  = ((read_all_lines disk before).1 ++ (read_all_lines disk after).1,
     (read_all_lines disk before).2 ++ (read_all_lines disk after).2).
Proof.
  rewrite !read_all_lines_eq. cbn [fst snd].
  by rewrite !map_app, !concat_app.
Qed.

(** What is printed is one message for every file whose read raised,
    in the order of the file list, made of the path and the exception;
    nothing is printed exactly when no read raised. *)
Theorem printed_messages disk file_list :
  (read_all_lines disk file_list).2
  = omap (λ path, error_message path <$> raised (disk path)) file_list
  ∧ ((read_all_lines disk file_list).2 = []
     ↔ Forall (λ path, raised (disk path) = None) file_list).
Proof.
  rewrite read_all_lines_eq. cbn [snd].
  induction file_list as [| path file_list [IH1 IH2]]; [done |].
  cbn [map concat omap list_omap]. unfold report at 1 3.
  destruct (raised (disk path)) as [exc |] eqn:Hexc; cbn [fmap option_fmap
    option_map app].
  - rewrite IH1. split; [done |]. split; [done |].
    intros H. apply Forall_cons in H as [H _]. congruence.
  - rewrite IH1. split; [done |]. rewrite <- IH1, IH2. split.
    + intros H. by constructor.
    + intros H. by apply Forall_cons in H as [_ H].
Qed.

(** The lines of a file put together again are the text of the file,
    with a line feed added at the end when the text is not empty and
    does not end with one; with the header before and the separator
    after, that is all the file contributes. *)
Theorem content_read_back disk path :
  joined (iter_lines (delivered (disk path))) = delivered (disk path)
  ∧ joined (map with_newline (iter_lines (delivered (disk path))))
    = (if endswith (delivered (disk path)) nl
          || String.eqb (delivered (disk path)) ""
       then delivered (disk path)
       else delivered (disk path) +:+ nl)
  ∧ joined (read_all_lines disk [path]).1
    = header path
        +:+ joined (map with_newline (iter_lines (delivered (disk path))))
        +:+ nl.
Proof.
  split_and!.
  - apply (iter_lines_from_joined _ "").
  - by rewrite (iter_lines_from_with_newline _ "").
  - rewrite read_all_lines_eq. cbn [fst map concat]. rewrite app_nil_r.
    unfold contribution. rewrite joined_cons, joined_app.
    rewrite (joined_cons nl []). change (joined []) with "".
    by rewrite append_nil_r.
Qed.

(** The header names its file: two paths have the same header only
    when they are the same path, and no header is a separator or
    padding line. *)
Theorem header_identifies_file p q :
  (header p = header q ↔ p = q) ∧ header p ≠ nl.
Proof.
  split; [split |].
  - unfold header. intros H. apply append_inj_l in H.
    rewrite <- !append_assoc in H. by do 2 apply append_inj_r in H.
  - by intros ->.
  - unfold header, nl. discriminate.
Qed.

(** Every file of the list adds its header and its separator, and one
    line for each line of its text: the list returned is empty only
    for the empty file list. *)
Theorem line_count disk file_list :
  length (read_all_lines disk file_list).1
  = sum_list (map (λ path,
                 2 + length (iter_lines (delivered (disk path))))
                file_list)
  ∧ 2 * length file_list ≤ length (read_all_lines disk file_list).1
  ∧ ((read_all_lines disk file_list).1 = [] ↔ file_list = []).
Proof.
  rewrite read_all_lines_eq. cbn [fst].
  assert (Hlen : length (concat (map (contribution disk) file_list))
    = sum_list (map (λ path,
                 2 + length (iter_lines (delivered (disk path))))
                file_list)).
  { induction file_list as [| path file_list IH]; [done |].
    cbn [map concat sum_list]. rewrite length_app, IH.
    unfold contribution. cbn [length].
    rewrite length_app, length_map. cbn [length]. unfold id. lia. }
  assert (Hmin : 2 * length file_list
                 ≤ length (concat (map (contribution disk) file_list))).
  { rewrite Hlen. clear Hlen.
    induction file_list as [| path file_list IH]; [done |].
    cbn [map length]. change (sum_list (?x :: ?l)) with (x + sum_list l).
    lia. }
  split_and!; [done | done |]. split.
  - intros H. rewrite H in Hmin. cbn [length] in Hmin.
    destruct file_list; [done | cbn in Hmin; lia].
  - by intros ->.
Qed.

(** ** The file list *)

Section Repo_files.

Implicit Types (s t f : string) (files : list string).

Lemma startswith_spec s t : startswith s t = true ↔ ∃ q, s = t +:+ q.
Proof.
  revert s. induction t as [| c t IH]; intros [| d s]; cbn [startswith].
  - split; [intros _; by exists "" | done].
  - split; [intros _; by exists (String d s) | done].
  - split; [done | intros [q Hq]; by rewrite append_cons in Hq].
  - rewrite andb_true_iff, IH. split.
    + intros [Hc [q ->]]. apply Ascii.eqb_eq in Hc as ->.
      exists q. by rewrite append_cons.
    + intros [q Hq]. rewrite append_cons in Hq. injection Hq as -> ->.
      split; [apply Ascii.eqb_refl | by exists q].
Qed.

Lemma kept_spec f :
  kept f = true ↔ (¬ ∃ q, f = "export/" +:+ q) ∧ f ≠ "export_repo.py".
Proof.
  unfold kept. rewrite andb_true_iff, !negb_true_iff.
  rewrite String.eqb_neq, <- startswith_spec.
  by rewrite not_true_iff_false.
Qed.

Lemma filter_Permutation (keep : string → bool) files files' :
  files ≡ₚ files' → List.filter keep files ≡ₚ List.filter keep files'.
Proof.
  induction 1 as [| x l l' _ IH | x y l | l1 l2 l3 _ IH1 _ IH2];
    cbn [List.filter].
  - done.
  - destruct (keep x); [by constructor | done].
  - destruct (keep x), (keep y); try done. apply perm_swap.
  - by etrans.
Qed.

Lemma sorted_Sorted files : Sorted String.le (sorted files).
Proof. apply (Sorted_merge_sort String.le). Qed.

Lemma sorted_Permutation files : sorted files ≡ₚ files.
Proof. apply (merge_sort_Permutation String.le). Qed.

(** The sorted list depends on which strings there are and how often,
    not on where they stand. *)
Lemma sorted_unique files files' :
  files ≡ₚ files' → sorted files = sorted files'.
Proof.
  intros Hp. apply (Sorted_unique String.le); [apply sorted_Sorted.. |].
  by rewrite !sorted_Permutation.
Qed.

Lemma filter_all (keep : string → bool) files :
  Forall (λ f, keep f = true) files → List.filter keep files = files.
Proof.
  induction 1 as [| f files Hf _ IH]; [done |].
  cbn [List.filter]. by rewrite Hf, IH.
Qed.

Lemma filter_none (keep : string → bool) files :
  Forall (λ f, keep f = false) files ↔ List.filter keep files = [].
Proof.
  induction files as [| f files IH]; cbn [List.filter]; [done |].
  rewrite Forall_cons, IH. destruct (keep f).
  - split; [by intros [? _] | done].
  - split; [by intros [_ ?] | done].
Qed.

Lemma get_repo_files_elem files f :
  f ∈ get_repo_files files ↔ f ∈ files ∧ kept f = true.
Proof.
  unfold get_repo_files. rewrite sorted_Permutation.
  by rewrite !list_elem_of_In, filter_In.
Qed.

End Repo_files.

(** The file list is in ascending order, holds each listed file that
    is neither under [export/] nor the script itself as often as it is
    listed, and nothing else. *)
Theorem get_repo_files_sorted_and_filtered (files : list string) :
  StronglySorted String.le (get_repo_files files)
  ∧ get_repo_files files ≡ₚ List.filter kept files
  ∧ ∀ f, f ∈ get_repo_files files
         ↔ f ∈ files ∧ (¬ ∃ q, f = "export/" +:+ q)
           ∧ f ≠ "export_repo.py".
Proof.
  split_and!.
  - apply (StronglySorted_merge_sort String.le).
  - apply sorted_Permutation.
  - intros f. by rewrite get_repo_files_elem, kept_spec.
Qed.

(** The order in which the files are listed does not matter: two
    listings of the same files give the same file list. *)
Theorem get_repo_files_order_independent (files files' : list string) :
  files ≡ₚ files' → get_repo_files files = get_repo_files files'.
Proof. intros Hp. by apply sorted_unique, filter_Permutation. Qed.

Lemma get_repo_files_order_independent_witness :
  tracked_demo
    ≡ₚ ["export/part_001.txt"; "src/b.py"; "README.md"; "export_repo.py"]
  ∧ get_repo_files tracked_demo
    = get_repo_files
        ["export/part_001.txt"; "src/b.py"; "README.md"; "export_repo.py"].
Proof.
  split; [apply perm_swap |].
  apply (get_repo_files_order_independent tracked_demo
           ["export/part_001.txt"; "src/b.py"; "README.md";
            "export_repo.py"]).
  apply perm_swap.
Defined.

(** Files under [export/] and the script itself do not change the file
    list, so listing the files again after an export gives the same
    list; and the file list of a file list is that list. *)
Theorem get_repo_files_ignores_exports (files extra : list string) :
  Forall (λ f, startswith f "export/" = true ∨ f = "export_repo.py")
         extra →
  get_repo_files (files ++ extra) = get_repo_files files
  ∧ get_repo_files (get_repo_files files) = get_repo_files files.
Proof.
  intros Hextra. split.
  - unfold get_repo_files. rewrite List.filter_app.
    replace (List.filter kept extra) with (@nil string);
      [by rewrite app_nil_r |].
    symmetry. apply filter_none. eapply Forall_impl; [exact Hextra |].
    intros f [Hs | ->]; [| done]. unfold kept. by rewrite Hs.
  - unfold get_repo_files at 1. rewrite filter_all.
    + apply (Sorted_unique String.le);
        [apply sorted_Sorted.. | apply sorted_Permutation].
    + apply Forall_forall. intros f Hf.
      by apply get_repo_files_elem in Hf as [_ Hf].
Qed.

Lemma get_repo_files_ignores_exports_witness :
  Forall (λ f, startswith f "export/" = true ∨ f = "export_repo.py")
         ["export/part_002.txt"; "export_repo.py"]
  ∧ get_repo_files (tracked_demo ++ ["export/part_002.txt"; "export_repo.py"])
    = get_repo_files tracked_demo
  ∧ get_repo_files (get_repo_files tracked_demo)
    = get_repo_files tracked_demo.
Proof.
  assert (H : Forall (λ f, startswith f "export/" = true
                           ∨ f = "export_repo.py")
                ["export/part_002.txt"; "export_repo.py"]).
  { constructor; [by left |]. constructor; [by right | constructor]. }
  split; [exact H |].
  apply (get_repo_files_ignores_exports tracked_demo
           ["export/part_002.txt"; "export_repo.py"] H).
Defined.

(** ** The whole run *)





